(** * Turn analysis of the [listen] repository: speaking times and interruptions

    Shallow embedding of the three analysis loops ([app.py],
    [voice_ai_agent.py], [voice_ai_agent_custom.py]), of the report
    dictionary and of the CSV export, over IEEE-754 binary64 numbers
    (the Python [float]). *)

From Stdlib Require Import ZArith Bool SpecFloat.
From Stdlib Require Import DecimalString DecimalNat.
From stdpp Require Import gmap strings list fin_maps.

Local Open Scope Z_scope.

(** ** Python floats *)

Module Float64.

Definition prec : Z := 53.
Definition emax : Z := 1024.

Definition float : Type := spec_float.

(** The representation is the canonical one of a binary64 value; every
    Python float is such a value. *)
Definition valid (x : float) : bool := valid_binary prec emax x.

Definition add (x y : float) : float := SFadd prec emax x y.
Definition sub (x y : float) : float := SFsub prec emax x y.
Definition ltb (x y : float) : bool := SFltb x y.
Definition leb (x y : float) : bool := SFleb x y.
Definition eqb (x y : float) : bool := SFeqb x y.

(** [0.0], the value [float()] returns: the default of
    [defaultdict(float)]. *)
Definition zero : float := S754_zero false.

(** The double nearest to the rational [n / d] (ties to even) carrying
    sign [s]: what reading a decimal literal yields. *)
Definition of_ratio (s : bool) (n d : positive) : float :=
  let '(mz, ez, lz) := SFdiv_core_binary prec emax (Zpos n) 0 (Zpos d) 0 in
  binary_round_aux prec emax s mz ez lz.

(** The literal whose decimal value is [n / d], e.g. [dec 1004 1000] for
    [1.004]. *)
Definition dec (n : Z) (d : positive) : float :=
  match n with
  | Z0 => zero
  | Zpos p => of_ratio false p d
  | Zneg p => of_ratio true p d
  end.

Definition of_Z (n : Z) : float := dec n 1.

(** Nearest integer to [n / d], ties to the even integer. *)
Definition div_half_even (n d : Z) : Z :=
  let q := n / d in
  let r := n mod d in
  match 2 * r ?= d with
  | Lt => q
  | Gt => q + 1
  | Eq => if Z.even q then q else q + 1
  end.

(** [hundredths m e] is the integer nearest to [m * 2^e * 100]. *)
Definition hundredths (m : positive) (e : Z) : Z :=
  match e with
  | Zneg p => div_half_even (Zpos m * 100) (2 ^ Zpos p)
  | _ => Zpos m * 100 * 2 ^ e
  end.

(** The builtin [round(x, 2)] on a float: NaN and the infinities round to
    themselves; a finite [x] is rounded, on its exact value and ties to
    even, to two decimals, and the double nearest to that decimal keeps
    the sign of [x]. *)
Definition round2 (x : float) : float :=
  match x with
  | S754_finite s m e =>
      match hundredths m e with
      | Zpos q => of_ratio s q 100
      | _ => S754_zero s
      end
  | _ => x
  end.

End Float64.

Import Float64.

Arguments add : simpl never.
Arguments sub : simpl never.
Arguments ltb : simpl never.
Arguments leb : simpl never.
Arguments eqb : simpl never.
Arguments round2 : simpl never.
Arguments of_ratio : simpl never.
Arguments valid : simpl never.

(** ** Data model *)

(** [pyannote.core.Segment]: the attributes [start] and [end] of a turn. *)
Record Segment : Type := { start : float; end_ : float }.

(** One element of [diarization.itertracks(yield_label=True)]: the turn,
    the track name (never read by the loops) and the speaker label. *)
Abbreviation track := (Segment * string * string)%type.

(** The dictionary appended to [interruptions]; the keys in insertion
    order. *)
Record interruption : Type := {
  time : float;
  interrupter : string;
  interrupted : string;
  overlap_duration : float
}.

(** The [report] dictionary. *)
Record report : Type := {
  total_speakers : nat;
  speaking_times : gmap string float;
  total_interruptions : nat;
  interruptions : list interruption
}.

(** What [interruptions.csv] holds: the header line and the data rows. *)
Inductive cell : Type :=
  | CellNum (x : float)
  | CellStr (s : string).

Record csv : Type := { columns : list string; rows : list (list cell) }.

(** Python code either completes with a value or raises. *)
Inductive outcome (A : Type) : Type :=
  | Completed (a : A)
  | Raised (exc : string).
Arguments Completed {A} a.
Arguments Raised {A} exc.

(** [speaking_times[speaker] += d] on a [defaultdict(float)]: a missing key
    reads as [0.0]. *)
Definition add_time (speaker : string) (d : float)
    (times : gmap string float) : gmap string float :=
  <[speaker := add (default zero (times !! speaker)) d]> times.

(** [{spk: round(t, 2) for spk, t in speaking_times.items()}] and the other
    three entries of [report]. *)
Definition build_report (times : gmap string float)
    (ints : list interruption) : report :=
  {| total_speakers := size times;
     speaking_times := round2 <$> times;
     total_interruptions := length ints;
     interruptions := ints |}.

Definition csv_header : list string :=
  ["time"; "interrupter"; "interrupted"; "overlap_duration"]%string.

Definition csv_row (e : interruption) : list cell :=
  [CellNum (time e); CellStr (interrupter e); CellStr (interrupted e);
   CellNum (overlap_duration e)].

(** [pd.DataFrame(interruptions).to_csv(index=False)] when the list is not
    empty, else the frame built from [columns=[...]] alone. *)
Definition export_csv (ints : list interruption) : csv :=
  match ints with
  | _ :: _ => {| columns := csv_header; rows := csv_row <$> ints |}
  | [] => {| columns := csv_header; rows := [] |}
  end.

(** ** app.py *)

Module App.

(** The body of [for i in range(len(segments))], lines 31-44, on the
    pair ([speaking_times], [interruptions]). *)
Definition loop_body (segments : list track) (i : nat)
    (st : gmap string float * list interruption)
    : gmap string float * list interruption :=
  let '(times, ints) := st in
  match segments !! i with
  | None => st
  | Some (turn, _, speaker) =>
      let times := add_time speaker (sub (end_ turn) (start turn)) times in
      if (0 <? i)%nat then
        match segments !! (i - 1)%nat with
        | None => (times, ints)
        | Some (prev_turn, _, prev_speaker) =>
            if ltb (start turn) (end_ prev_turn)
               && bool_decide (speaker ≠ prev_speaker)
            then (times,
                  ints ++ [ {| time := round2 (start turn);
                               interrupter := speaker;
                               interrupted := prev_speaker;
                               overlap_duration :=
                                 round2 (sub (end_ prev_turn) (start turn)) |} ])
            else (times, ints)
        end
      else (times, ints)
  end.

(** Lines 22-44: both accumulators start empty and the loop runs over
    [range(len(segments))]. *)
Definition analyze (segments : list track)
    : gmap string float * list interruption :=
  foldl (fun st i => loop_body segments i st) (∅, [])
        (seq 0 (length segments)).

(** Lines 22-64: analysis, report and CSV export.  No statement of these
    lines raises on floats and strings, so the run always completes. *)
Definition run (segments : list track) : outcome (report * csv) :=
  let '(times, ints) := analyze segments in
  Completed (build_report times ints, export_csv ints).

End App.

(** ** voice_ai_agent.py *)

Module VoiceAgent.

(** The body of the loop of [main], lines 134-147. *)
Definition loop_body (segments : list track) (i : nat)
    (st : gmap string float * list interruption)
    : gmap string float * list interruption :=
  let '(times, ints) := st in
  match segments !! i with
  | None => st
  | Some (turn, _, speaker) =>
      let times := add_time speaker (sub (end_ turn) (start turn)) times in
      if (0 <? i)%nat then
        match segments !! (i - 1)%nat with
        | None => (times, ints)
        | Some (prev_turn, _, prev_speaker) =>
            if ltb (start turn) (end_ prev_turn)
               && bool_decide (speaker ≠ prev_speaker)
            then (times,
                  ints ++ [ {| time := round2 (start turn);
                               interrupter := speaker;
                               interrupted := prev_speaker;
                               overlap_duration :=
                                 round2 (sub (end_ prev_turn) (start turn)) |} ])
            else (times, ints)
        end
      else (times, ints)
  end.

Definition analyze (segments : list track)
    : gmap string float * list interruption :=
  foldl (fun st i => loop_body segments i st) (∅, [])
        (seq 0 (length segments)).

End VoiceAgent.

(** ** voice_ai_agent_custom.py *)

Module Custom.

(** The objects an item of the segmentation can hold: a [Segment] (the
    only one with [start] and [end] attributes), a label, the score
    array. *)
Inductive pyobj : Type :=
  | ObjSegment (s : Segment)
  | ObjLabel (l : string)
  | ObjArray.

Inductive item : Type :=
  | ItemTuple (elems : list pyobj)
  | ItemOther (o : pyobj).

(** The dictionaries of the local list [segments]. *)
Record seg : Type := { seg_start : float; seg_end : float; seg_speaker : string }.

(** The padding of the format [02d]: [n] zeros on the left. *)
Fixpoint zero_pad (n : nat) (s : string) : string :=
  match n with
  | O => s
  | S n => String (Ascii.ascii_of_nat 48) (zero_pad n s)
  end.

Definition format_02d (n : nat) : string :=
  let s := NilEmpty.string_of_uint (Nat.to_uint n) in
  zero_pad (2 - String.length s) s.

(** [f"SPEAKER_{len(segments):02d}"] *)
Definition speaker_label (n : nat) : string :=
  ("SPEAKER_" ++ format_02d n)%string.

(** Lines 81-91: the items that pass both tests are appended, labelled by
    the length of the list so far. *)
Definition convert_item (segments : list seg) (it : item) : list seg :=
  match it with
  | ItemTuple (ObjSegment segment_obj :: _) =>
      segments ++ [ {| seg_start := start segment_obj;
                       seg_end := end_ segment_obj;
                       seg_speaker := speaker_label (length segments) |} ]
  | _ => segments
  end.

Definition convert (segmentation : list item) : list seg :=
  foldl convert_item [] segmentation.

(** The [Segment] of an item that passes both tests of lines 84 and 86. *)
Definition accepted (it : item) : option Segment :=
  match it with
  | ItemTuple (ObjSegment segment_obj :: _) => Some segment_obj
  | _ => None
  end.

(** The dictionary built for the accepted segment number [i]. *)
Definition labelled (i : nat) (s : Segment) : seg :=
  {| seg_start := start s; seg_end := end_ s; seg_speaker := speaker_label i |}.

(** Reading a label back: the number after the prefix. *)
Definition parse_02d (s : string) : option nat :=
  Nat.of_uint <$> NilEmpty.uint_of_string s.

(** The body of [for i, segment in enumerate(segments)], lines 100-116. *)
Definition loop_body (segments : list seg)
    (st : gmap string float * list interruption) (p : nat * seg)
    : gmap string float * list interruption :=
  let '(times, ints) := st in
  let '(i, segment) := p in
  let speaker := seg_speaker segment in
  let duration := sub (seg_end segment) (seg_start segment) in
  let times := add_time speaker duration times in
  if (0 <? i)%nat then
    match segments !! (i - 1)%nat with
    | None => (times, ints)
    | Some prev_segment =>
        if ltb (seg_start segment) (seg_end prev_segment) then
          let overlap := sub (seg_end prev_segment) (seg_start segment) in
          (times,
           ints ++ [ {| time := round2 (seg_start segment);
                        interrupter := speaker;
                        interrupted := seg_speaker prev_segment;
                        overlap_duration := round2 overlap |} ])
        else (times, ints)
    end
  else (times, ints).

Definition analyze_segments (segments : list seg)
    : gmap string float * list interruption :=
  foldl (loop_body segments) (∅, [])
        (zip (seq 0 (length segments)) segments).

Definition analyze_speakers_and_interruptions (segmentation : list item)
    : gmap string float * list interruption :=
  analyze_segments (convert segmentation).

(** Lines 167-175 of [main]. *)
Definition main_report (segmentation : list item) : report :=
  let '(times, ints) := analyze_speakers_and_interruptions segmentation in
  build_report times ints.

End Custom.

(** ** The detector as the specification words it *)

Module Spec.

(** An adjacent pair yields an event iff the current turn starts before
    the previous one ends and the speakers differ. *)
Definition pair_event (previous current : track) : option interruption :=
  let '(prev_turn, _, prev_speaker) := previous in
  let '(turn, _, speaker) := current in
  if ltb (start turn) (end_ prev_turn) && bool_decide (speaker ≠ prev_speaker)
  then Some {| time := round2 (start turn);
               interrupter := speaker;
               interrupted := prev_speaker;
               overlap_duration := round2 (sub (end_ prev_turn) (start turn)) |}
  else None.

(** The events of the pairs [(i - 1, i)] for [i] from 1 to [n - 1], in
    that order. *)
Definition detector (segments : list track) : list interruption :=
  omap (fun i =>
          previous ← segments !! (i - 1)%nat;
          current ← segments !! i;
          pair_event previous current)
       (seq 1 (length segments - 1)).

End Spec.

(** ** The scripts around the loops *)

Module Script.

(** What a script hands to [json.dump], [to_csv] or [f.write]. *)
Inductive file_content : Type :=
  | FileJson (r : report)
  | FileCsv (c : csv)
  | FileText (s : string).

(** The calls a script makes to the outside, with their arguments.
    [CallPipeline] carries the token the pipeline was loaded with. *)
Inductive call : Type :=
  | CallInput (prompt : string)
  | CallLogin (token : string)
  | CallPipelineFromPretrained (token : option string)
  | CallModelFromPretrained
  | CallPathExists (path : string)
  | CallPipeline (loaded_with : option string) (path : string)
  | CallSfRead (path : string)
  | CallInference (path : string)
  | CallWrite (path : string) (content : file_content).

(** What the scripts do not define themselves: two [str] builtins, the
    environment and the answers of the outside ([true] in a [_raises]
    field and [None] as an answer stand for an exception). *)
Record world : Type := {
  strip : string → string;
  lower : string → string;
  getenv_token : option string;
  login_raises : string → bool;
  pipeline_from_pretrained_raises : option string → bool;
  model_from_pretrained_raises : bool;
  path_exists : string → bool;
  pipeline : option string → string → option (list track);
  sf_read_raises : string → bool;
  inference : string → option (list Custom.item);
  write_raises : string → bool
}.

(** The lines still to be read on standard input and the calls made so
    far.  The text written by [print] is not kept. *)
Record state : Type := { stdin : list string; log : list call }.

Definition script (A : Type) : Type := state → outcome A * state.

Definition ret {A : Type} (a : A) : script A := fun st => (Completed a, st).

Definition bind {A B : Type} (m : script A) (k : A → script B) : script B :=
  fun st =>
    match m st with
    | (Completed a, st') => k a st'
    | (Raised exc, st') => (Raised exc, st')
    end.

Definition raise {A : Type} (exc : string) : script A :=
  fun st => (Raised exc, st).

(** [try: m  except Exception: ...]: the exception does not go further. *)
Definition try {A : Type} (m : script A) : script (option A) :=
  fun st =>
    match m st with
    | (Completed a, st') => (Completed (Some a), st')
    | (Raised _, st') => (Completed None, st')
    end.

(** Every call to the outside is put on the log when it is made. *)
Definition record (c : call) : script unit :=
  fun st => (Completed tt, {| stdin := stdin st; log := log st ++ [c] |}).

Notation "'let*' x := m 'in' k" := (bind m (fun x => k))
  (at level 10, x name, m at level 100, k at level 200).
Notation "m ;; k" := (bind m (fun _ => k))
  (at level 100, k at level 200, right associativity).

(** [input(prompt)]: the next line, or [EOFError] at the end of the
    input. *)
Definition input (prompt : string) : script string :=
  record (CallInput prompt) ;;
  fun st =>
    match stdin st with
    | [] => (Raised "EOFError", st)
    | line :: rest => (Completed line, {| stdin := rest; log := log st |})
    end.

(** [login(token=token)] *)
Definition login (w : world) (token : string) : script unit :=
  record (CallLogin token) ;;
  if login_raises w token then raise "Exception" else ret tt.

(** [Pipeline.from_pretrained("pyannote/speaker-diarization",
    segmentation="pyannote/segmentation-3.0")], with [token=token] when a
    token is given; the result stands for the pipeline loaded that way. *)
Definition pipeline_from_pretrained (w : world) (token : option string)
    : script (option string) :=
  record (CallPipelineFromPretrained token) ;;
  if pipeline_from_pretrained_raises w token then raise "Exception"
  else ret token.

(** [Model.from_pretrained("pyannote/segmentation-3.0")] followed by
    [Inference(model)]. *)
Definition model_from_pretrained (w : world) : script unit :=
  record CallModelFromPretrained ;;
  if model_from_pretrained_raises w then raise "Exception" else ret tt.

(** [os.path.exists(path)] *)
Definition os_path_exists (w : world) (path : string) : script bool :=
  record (CallPathExists path) ;;
  ret (path_exists w path).

(** [pipeline(path)] followed by [list(diarization.itertracks(...))]. *)
Definition run_pipeline (w : world) (loaded_with : option string) (path : string)
    : script (list track) :=
  record (CallPipeline loaded_with path) ;;
  match pipeline w loaded_with path with
  | Some segments => ret segments
  | None => raise "Exception"
  end.

(** [sf.read(path)] *)
Definition sf_read (w : world) (path : string) : script unit :=
  record (CallSfRead path) ;;
  if sf_read_raises w path then raise "Exception" else ret tt.

(** [inference(path)], read as the list of its items. *)
Definition run_inference (w : world) (path : string) : script (list Custom.item) :=
  record (CallInference path) ;;
  match inference w path with
  | Some segmentation => ret segmentation
  | None => raise "Exception"
  end.

(** [with open(path, "w") as f: ...] *)
Definition write_file (w : world) (path : string) (content : file_content)
    : script unit :=
  record (CallWrite path content) ;;
  if write_raises w path then raise "OSError" else ret tt.

Definition AUDIO_FILE : string := "amicorpus/ES2016b/audio/ES2016b.Mix-Lapel.wav".

(** [get_pyannote_token] of [voice_ai_agent.py] and of
    [voice_ai_agent_custom.py] (the two differ in one printed line). *)
Definition get_pyannote_token (w : world) : script (option string) :=
  match getenv_token w with
  | Some token =>
      if bool_decide (token ≠ ""%string) then ret (Some token)
      else
        let* typed := input "Enter your PYANNOTE_TOKEN: " in
        let token := strip w typed in
        if bool_decide (token = ""%string) then ret None else ret (Some token)
  | None =>
      let* typed := input "Enter your PYANNOTE_TOKEN: " in
      let token := strip w typed in
      if bool_decide (token = ""%string) then ret None else ret (Some token)
  end.

(** [setup_pyannote_token] of [setup_token.py]. *)
Definition setup_pyannote_token (w : world) : script unit :=
  let* typed := input "Enter your PYANNOTE_TOKEN: " in
  let token := strip w typed in
  if bool_decide (token = ""%string) then ret tt
  else
    let* go_on :=
      (if String.prefix "hf_" token then ret true
       else
         let* answer := input "Continue anyway? (y/N): " in
         let confirm := lower w (strip w answer) in
         ret (bool_decide (confirm = "y"%string))) in
    if (go_on : bool) then
      let env_content := ("PYANNOTE_TOKEN=" +:+ token +:+ String (Ascii.ascii_of_nat 10) "")%string in
      try (write_file w ".env" (FileText env_content)) ;;
      ret tt
    else ret tt.

(** Lines 124-167 of [main] of [voice_ai_agent.py]: the analysis of the
    segments, then the two files. *)
Definition report_and_export (w : world) (times : gmap string float)
    (ints : list interruption) : script unit :=
  let report := build_report times ints in
  write_file w "meeting_report.json" (FileJson report) ;;
  write_file w "interruptions.csv" (FileCsv (export_csv ints)).

(** [main] of [voice_ai_agent.py]. *)
Definition voice_agent_main (w : world) : script unit :=
  let* token := get_pyannote_token w in
  match token with
  | None => ret tt
  | Some token =>
      if bool_decide (token = ""%string) then ret tt
      else
        let* logged := try (login w token) in
        match logged with
        | None => ret tt
        | Some _ =>
            let* first := try (pipeline_from_pretrained w None) in
            let* loaded :=
              match first with
              | Some p => ret (Some p)
              | None => try (pipeline_from_pretrained w (Some token))
              end in
            match loaded with
            | None => ret tt
            | Some p =>
                let* found := os_path_exists w AUDIO_FILE in
                if (found : bool) then
                  let* diarization := try (run_pipeline w p AUDIO_FILE) in
                  match diarization with
                  | None => ret tt
                  | Some segments =>
                      let '(times, ints) := VoiceAgent.analyze segments in
                      report_and_export w times ints
                  end
                else ret tt
            end
        end
  end.

(** [load_audio_file]: [None] stands for the pair [(None, None)]. *)
Definition load_audio_file (w : world) (file_path : string) : script (option unit) :=
  try (sf_read w file_path).

(** [detect_speech_segments] *)
Definition detect_speech_segments (w : world) (audio_file : string)
    : script (option (list Custom.item)) :=
  try (run_inference w audio_file).

(** [main] of [voice_ai_agent_custom.py]. *)
Definition custom_main (w : world) : script unit :=
  let* token := get_pyannote_token w in
  match token with
  | None => ret tt
  | Some token =>
      if bool_decide (token = ""%string) then ret tt
      else
        let* logged := try (login w token) in
        match logged with
        | None => ret tt
        | Some _ =>
            let* model := try (model_from_pretrained w) in
            match model with
            | None => ret tt
            | Some _ =>
                let* found := os_path_exists w AUDIO_FILE in
                if (found : bool) then
                  let* waveform := load_audio_file w AUDIO_FILE in
                  match waveform with
                  | None => ret tt
                  | Some _ =>
                      let* segmentation := detect_speech_segments w AUDIO_FILE in
                      match segmentation with
                      | None => ret tt
                      | Some segmentation =>
                          let '(times, ints) :=
                            Custom.analyze_speakers_and_interruptions segmentation in
                          report_and_export w times ints
                      end
                  end
                else ret tt
            end
        end
  end.

End Script.

(** ** Views used by the statements *)

Definition label (t : track) : string := t.2.

(** [turn.end - turn.start] of an element of [segments]. *)
Definition duration (t : track) : float := sub (end_ t.1.1) (start t.1.1).

(** The speaking-time pass on its own: every turn is added, in order. *)
Definition accumulate (segments : list track) : gmap string float :=
  foldl (fun times t => add_time (label t) (duration t) times) ∅ segments.

(** The running total a speaker gets from a list of durations, the first
    one added to the default [0.0]. *)
Definition running_total (ds : list float) : float := foldl add zero ds.

(** The durations of the turns of [speaker], in turn order. *)
Definition durations_of (speaker : string) (segments : list track) : list float :=
  duration <$> filter (fun t => label t = speaker) segments.

(** The events a loop iteration at index [i] adds. *)
Definition events_at (segments : list track) (i : nat) : list interruption :=
  option_list (previous ← (if (0 <? i)%nat then segments !! (i - 1)%nat else None);
               current ← segments !! i;
               Spec.pair_event previous current).

(** The sign bit is clear and the value is a number: such a float
    compares [>= 0.0]. *)
Definition is_nonneg (x : float) : bool :=
  match x with
  | S754_zero s | S754_infinity s | S754_finite s _ _ => negb s
  | S754_nan => false
  end.

(** A finite non-zero value or an infinity, with the sign bit clear: such a
    float compares [> 0.0]. *)
Definition is_pos (x : float) : bool :=
  match x with
  | S754_infinity s | S754_finite s _ _ => negb s
  | _ => false
  end.

Definition valid_track (t : track) : Prop :=
  valid (start t.1.1) = true ∧ valid (end_ t.1.1) = true.

(** Neither NaN nor an infinity. *)
Definition is_finite (x : float) : bool :=
  match x with
  | S754_zero _ | S754_finite _ _ _ => true
  | _ => false
  end.

(** A turn as the diarization is expected to give it: finite times with
    [start <= end]. *)
Definition well_formed (t : track) : Prop :=
  valid_track t
  ∧ is_finite (start t.1.1) = true ∧ is_finite (end_ t.1.1) = true
  ∧ leb (start t.1.1) (end_ t.1.1) = true.

(** The adjacent pair ending at the last turn of [segments], extended by
    [t]: the event the next iteration adds. *)
Definition next_events (segments : list track) (t : track) : list interruption :=
  option_list (previous ← last segments; Spec.pair_event previous t).

(** A relabelled segment of [voice_ai_agent_custom.py] seen as an element
    of [itertracks]: same times, same label, no track name. *)
Definition seg_track (s : Custom.seg) : track :=
  ({| start := Custom.seg_start s; end_ := Custom.seg_end s |}, ""%string,
   Custom.seg_speaker s).

(** ** Sample inputs *)

Definition mk_turn (s e : float) (speaker : string) : track :=
  ({| start := s; end_ := e |}, "A"%string, speaker).

Definition turn_of (s e : Z) (speaker : string) : track :=
  mk_turn (of_Z s) (of_Z e) speaker.

(** An outside where everything works: the token is in the environment
    and the diarization gives the three sample turns. *)
Definition sample_world : Script.world :=
  {| Script.strip := id;
     Script.lower := id;
     Script.getenv_token := Some "hf_sample"%string;
     Script.login_raises := fun _ => false;
     Script.pipeline_from_pretrained_raises := fun _ => false;
     Script.model_from_pretrained_raises := false;
     Script.path_exists := fun _ => true;
     Script.pipeline := fun _ _ =>
       Some [turn_of 0 5 "X"; turn_of 3 8 "Y"; turn_of 10 12 "X"];
     Script.sf_read_raises := fun _ => false;
     Script.inference := fun _ => Some [];
     Script.write_raises := fun _ => false |}.

(** ** Signs of rounded values *)

Section Rounding.

Variables prec emax : Z.

Lemma shr_1_nonneg r : 0 ≤ shr_m r → 0 ≤ shr_m (shr_1 r).
Proof.
  destruct r as [m r s]. cbn [shr_m shr_1].
  destruct m as [|[p|p|]|p]; cbn; lia.
Qed.

Lemma iter_pos_shr_1_nonneg p r :
  0 ≤ shr_m r → 0 ≤ shr_m (SpecFloat.iter_pos shr_1 p r).
Proof.
  revert r. induction p as [p IH|p IH|]; intros r Hr; cbn [SpecFloat.iter_pos].
  - apply IH, IH. by apply shr_1_nonneg.
  - by apply IH, IH.
  - by apply shr_1_nonneg.
Qed.

Lemma shr_nonneg r e n : 0 ≤ shr_m r → 0 ≤ shr_m (fst (shr r e n)).
Proof.
  intros Hr. destruct n; cbn [shr fst]; [done| |done].
  by apply iter_pos_shr_1_nonneg.
Qed.

Lemma shr_m_of_loc m l : shr_m (shr_record_of_loc m l) = m.
Proof. by destruct l as [|[]]. Qed.

Lemma shr_fexp_nonneg m e l :
  0 ≤ m → 0 ≤ shr_m (fst (shr_fexp prec emax m e l)).
Proof.
  intros Hm. unfold shr_fexp. apply shr_nonneg. by rewrite shr_m_of_loc.
Qed.

Lemma round_nearest_even_nonneg m l : 0 ≤ m → 0 ≤ round_nearest_even m l.
Proof.
  intros Hm. destruct l as [|[]]; cbn [round_nearest_even]; [done| |done|lia].
  destruct (Z.even m); lia.
Qed.

(** Rounding a non-negative mantissa keeps the sign it is given and never
    yields NaN. *)
Lemma binary_round_aux_sign s m e l :
  0 ≤ m →
  match binary_round_aux prec emax s m e l with
  | S754_zero s' | S754_infinity s' | S754_finite s' _ _ => s' = s
  | S754_nan => False
  end.
Proof.
  intros Hm. unfold binary_round_aux.
  pose proof (shr_fexp_nonneg m e l Hm) as H1.
  destruct (shr_fexp prec emax m e l) as [mrs' e'] eqn:E1. cbn [fst] in H1.
  pose proof (shr_fexp_nonneg _ e' loc_Exact
                (round_nearest_even_nonneg _ (loc_of_shr_record mrs') H1)) as H2.
  destruct (shr_fexp prec emax (round_nearest_even _ _) e' loc_Exact)
    as [mrs'' e''] eqn:E2. cbn [fst] in H2.
  destruct (shr_m mrs'') as [|q|q]; [done| |lia].
  by destruct (e'' <=? emax - prec).
Qed.

Lemma shr_1_value r : 0 ≤ shr_m r → shr_m (shr_1 r) = shr_m r / 2.
Proof.
  destruct r as [m r s]. cbn [shr_m shr_1]. intros Hm.
  rewrite <- Z.div2_div. by destruct m as [|[p|p|]|p].
Qed.

Lemma iter_pos_shr_1_value p r :
  0 ≤ shr_m r → shr_m (SpecFloat.iter_pos shr_1 p r) = shr_m r / 2 ^ Zpos p.
Proof.
  revert r. induction p as [p IH|p IH|]; intros r Hr; cbn [SpecFloat.iter_pos].
  - assert (Hp : 0 < 2 ^ Zpos p) by (apply Z.pow_pos_nonneg; lia).
    rewrite !IH, shr_1_value
      by auto using shr_1_nonneg, iter_pos_shr_1_nonneg.
    rewrite !Z.div_div by nia. f_equal.
    replace (Zpos p~1) with (Zpos p + Zpos p + 1) by lia.
    rewrite !Z.pow_add_r, Z.pow_1_r by lia. ring.
  - assert (Hp : 0 < 2 ^ Zpos p) by (apply Z.pow_pos_nonneg; lia).
    rewrite !IH by auto using iter_pos_shr_1_nonneg.
    rewrite !Z.div_div by nia. f_equal.
    replace (Zpos p~0) with (Zpos p + Zpos p) by lia.
    rewrite !Z.pow_add_r by lia. ring.
  - by rewrite shr_1_value.
Qed.

Lemma digits2_pos_bounds m :
  2 ^ Zpos (digits2_pos m) ≤ 2 * Zpos m ∧ Zpos m < 2 ^ Zpos (digits2_pos m).
Proof.
  induction m as [p [IH1 IH2]|p [IH1 IH2]|]; cbn [digits2_pos].
  - rewrite Pos2Z.inj_succ, Z.pow_succ_r by lia. lia.
  - rewrite Pos2Z.inj_succ, Z.pow_succ_r by lia. lia.
  - cbn. lia.
Qed.

Hypothesis prec_pos : 0 < prec.

(** Above the least exponent, shifting to the target exponent keeps a
    positive mantissa positive. *)
Lemma shr_fexp_pos m e l :
  0 < m → SpecFloat.emin prec emax ≤ e →
  0 < shr_m (fst (shr_fexp prec emax m e l))
  ∧ SpecFloat.emin prec emax ≤ snd (shr_fexp prec emax m e l).
Proof.
  intros Hm He. unfold shr_fexp, shr.
  destruct (fexp prec emax (Zdigits2 m + e) - e) as [|n|n] eqn:Hn; cbn [fst snd];
    rewrite ?shr_m_of_loc; [done| |done].
  rewrite iter_pos_shr_1_value by (rewrite shr_m_of_loc; lia).
  rewrite shr_m_of_loc. unfold fexp in *.
  destruct m as [|mm|mm]; [lia| |lia]. cbn [Zdigits2] in Hn.
  destruct (digits2_pos_bounds mm) as [Hd _].
  split; [|lia].
  apply Z.div_str_pos. split; [apply Z.pow_pos_nonneg; lia|].
  assert (Hle : Zpos n + 1 ≤ Zpos (digits2_pos mm)) by lia.
  assert (H2 : 2 ^ (Zpos n + 1) ≤ 2 ^ Zpos (digits2_pos mm))
    by (apply Z.pow_le_mono_r; lia).
  rewrite Z.pow_add_r in H2 by lia. lia.
Qed.

(** Above the least exponent, rounding a positive mantissa gives a non-zero
    number or an infinity, with the sign it is given. *)
Lemma binary_round_aux_pos s m e l :
  0 < m → SpecFloat.emin prec emax ≤ e →
  match binary_round_aux prec emax s m e l with
  | S754_infinity s' | S754_finite s' _ _ => s' = s
  | _ => False
  end.
Proof.
  intros Hm He. unfold binary_round_aux.
  destruct (shr_fexp_pos m e l Hm He) as [H1 H1e].
  destruct (shr_fexp prec emax m e l) as [mrs' e'] eqn:E1. cbn [fst snd] in H1, H1e.
  assert (Hr : 0 < round_nearest_even (shr_m mrs') (loc_of_shr_record mrs')).
  { destruct (loc_of_shr_record mrs') as [|[]]; cbn [round_nearest_even]; try lia.
    destruct (Z.even _); lia. }
  destruct (shr_fexp_pos _ e' loc_Exact Hr H1e) as [H2 _].
  destruct (shr_fexp prec emax (round_nearest_even _ _) e' loc_Exact)
    as [mrs'' e''] eqn:E2. cbn [fst] in H2.
  destruct (shr_m mrs'') as [|q|q]; [lia| |lia].
  by destruct (e'' <=? emax - prec).
Qed.

Lemma binary_round_pos s m e :
  SpecFloat.emin prec emax ≤ e →
  match binary_round prec emax s m e with
  | S754_infinity s' | S754_finite s' _ _ => s' = s
  | _ => False
  end.
Proof.
  intros He. unfold binary_round.
  assert (Hez : SpecFloat.emin prec emax
                ≤ snd (shl_align m e (fexp prec emax (Zpos (digits2_pos m) + e)))).
  { unfold shl_align, fexp. destruct (_ - e) eqn:Hd; cbn [snd]; lia. }
  destruct (shl_align m e _) as [mz ez]. cbn [snd] in Hez.
  apply binary_round_aux_pos; [lia | done].
Qed.

End Rounding.

(** ** The model of [round(x, 2)] *)

(** [div_half_even n d] is an integer nearest to [n / d]. *)
Lemma div_half_even_nearest n d :
  0 < d → 2 * Z.abs (n - div_half_even n d * d) ≤ d.
Proof.
  intros Hd. unfold div_half_even.
  pose proof (Z.div_mod n d ltac:(lia)) as Hn.
  pose proof (Z.mod_pos_bound n d Hd) as Hr.
  set (q := n / d) in *. set (r := n mod d) in *.
  destruct (Z.compare_spec (2 * r) d); [destruct (Z.even q)| |]; nia.
Qed.

(** [hundredths m e] is within one half of [m * 2^e * 100]. *)
Lemma hundredths_nearest m e :
  2 * Z.abs (Zpos m * 100 * 2 ^ Z.max e 0 - hundredths m e * 2 ^ Z.max (- e) 0)
  ≤ 2 ^ Z.max (- e) 0.
Proof.
  unfold hundredths. destruct e as [|p|p].
  - change (Z.max (- 0) 0) with 0. change (Z.max 0 0) with 0.
    rewrite !Z.pow_0_r. lia.
  - replace (Z.max (- Zpos p) 0) with 0 by lia.
    replace (Z.max (Zpos p) 0) with (Zpos p) by lia.
    rewrite Z.pow_0_r. lia.
  - replace (Z.max (- Zneg p) 0) with (Zpos p) by lia.
    replace (Z.max (Zneg p) 0) with 0 by lia.
    rewrite Z.pow_0_r, Z.mul_1_r.
    apply div_half_even_nearest. apply Z.pow_pos_nonneg; lia.
Qed.

Example float_literals :
  dec 1 10 = S754_finite false 7205759403792794 (-56)
  ∧ add (dec 1 10) (dec 2 10) = dec 30000000000000004 100000000000000000
  ∧ of_Z 5 = S754_finite false 5629499534213120 (-50).
Proof. split_and!; by vm_compute. Qed.

Example round2_samples :
  round2 (dec 125 1000) = dec 12 100
  ∧ round2 (dec 375 1000) = dec 38 100
  ∧ round2 (dec 2675 1000) = dec 267 100
  ∧ round2 (dec 1005 1000) = dec 1 1
  ∧ round2 (dec 314159 100000) = dec 314 100
  ∧ round2 (dec (-1) 1000) = S754_zero true
  ∧ round2 (S754_infinity false) = S754_infinity false
  ∧ round2 S754_nan = S754_nan.
Proof. split_and!; by vm_compute. Qed.

(** ** Signs of binary64 results *)

Lemma is_nonneg_leb x : is_nonneg x = true → leb zero x = true.
Proof. by destruct x as [[]|[]| |[] m e]. Qed.

Lemma is_pos_ltb x : is_pos x = true → ltb zero x = true.
Proof. by destruct x as [[]|[]| |[] m e]. Qed.

Lemma is_pos_nonneg x : is_pos x = true → is_nonneg x = true.
Proof. by destruct x as [[]|[]| |[] m e]. Qed.

Lemma div_core_quotient_nonneg n d :
  0 ≤ (SFdiv_core_binary prec emax (Zpos n) 0 (Zpos d) 0).1.1.
Proof.
  unfold SFdiv_core_binary.
  set (sh := _ - _ - _). set (m' := match sh with Z0 => _ | Zpos _ => _ | Zneg _ => _ end).
  assert (Hm' : 0 ≤ m').
  { subst m'. destruct sh; [lia| |lia]. apply Z.shiftl_nonneg. lia. }
  pose proof (Z_div_mod m' (Zpos d) eq_refl) as Hdiv.
  destruct (Z.div_eucl m' (Zpos d)) as [q r]. cbn [fst]. nia.
Qed.

Lemma of_ratio_nonneg n d : is_nonneg (of_ratio false n d) = true.
Proof.
  unfold of_ratio. pose proof (div_core_quotient_nonneg n d) as Hq.
  destruct (SFdiv_core_binary prec emax (Zpos n) 0 (Zpos d) 0) as [[mz ez] lz].
  cbn [fst] in Hq.
  pose proof (binary_round_aux_sign prec emax false mz ez lz Hq) as Hs.
  by destruct (binary_round_aux prec emax false mz ez lz) as [| | |]; subst.
Qed.

(** [round(x, 2)] of a float that is not negative is not negative. *)
Lemma round2_nonneg x : is_nonneg x = true → is_nonneg (round2 x) = true.
Proof.
  destruct x as [s|s| |s m e]; try done.
  cbn [is_nonneg]. intros ->%negb_true_iff. unfold round2.
  destruct (hundredths m e); [done| |done]. apply of_ratio_nonneg.
Qed.

Lemma shl_align_value m e ez :
  ez ≤ e → Zpos (fst (shl_align m e ez)) = Zpos m * 2 ^ (e - ez).
Proof.
  intros Hle. unfold shl_align.
  destruct (ez - e) as [|d|d] eqn:Hd; cbn [fst].
  - replace (e - ez) with 0 by lia. lia.
  - lia.
  - replace (e - ez) with (Zpos d) by lia.
    change (Pos.iter xO m d) with (shift_pos d m).
    rewrite shift_pos_correct, Zpower_pos_nat, Zpower_nat_Z, positive_nat_Z. lia.
Qed.

(** Among valid finite doubles the one with the larger exponent has the
    larger magnitude. *)
Lemma bounded_exponent_lt ma ea mb eb :
  bounded prec emax ma ea = true → bounded prec emax mb eb = true →
  ea < eb → Zpos ma < Zpos mb * 2 ^ (eb - ea).
Proof.
  unfold bounded, canonical_mantissa, fexp, SpecFloat.emin, prec, emax.
  intros [Ha _]%andb_true_iff [Hb _]%andb_true_iff Hlt.
  apply Z.eqb_eq in Ha, Hb.
  destruct (digits2_pos_bounds ma) as [_ Ha2].
  destruct (digits2_pos_bounds mb) as [Hb1 _].
  assert (Hda : Zpos (digits2_pos ma) ≤ 53) by lia.
  assert (Hdb : Zpos (digits2_pos mb) = 53) by lia.
  rewrite Hdb in Hb1.
  assert (Zpos ma < 2 ^ 53).
  { eapply Z.lt_le_trans; [exact Ha2|]. apply Z.pow_le_mono_r; lia. }
  assert (2 ^ 1 ≤ 2 ^ (eb - ea)) by (apply Z.pow_le_mono_r; lia).
  nia.
Qed.

(** The exact difference [b - a] of two valid finite doubles with [a < b],
    on the common exponent, is positive. *)
Lemma finite_lt_difference sa ma ea sb mb eb :
  bounded prec emax ma ea = true → bounded prec emax mb eb = true →
  SFcompare (S754_finite sa ma ea) (S754_finite sb mb eb) = Some Lt →
  0 < cond_Zopp sb (Zpos (fst (shl_align mb eb (Z.min eb ea))))
      - cond_Zopp sa (Zpos (fst (shl_align ma ea (Z.min eb ea)))).
Proof.
  intros Ha Hb Hcmp.
  rewrite !shl_align_value by lia.
  cbn [SFcompare] in Hcmp.
  pose proof (bounded_exponent_lt _ _ _ _ Ha Hb) as Hab.
  pose proof (bounded_exponent_lt _ _ _ _ Hb Ha) as Hba.
  destruct sa, sb; cbn [cond_Zopp]; try discriminate.
  - destruct (Z.compare_spec ea eb) as [->|Hlt|Hgt]; try discriminate.
    + rewrite Z.min_id, Z.sub_diag, !Z.mul_1_r.
      rewrite Pos.compare_cont_spec in Hcmp. cbn in Hcmp.
      destruct (Pos.compare_spec ma mb); try discriminate. lia.
    + rewrite Z.min_l, Z.sub_diag by lia. specialize (Hba Hgt). lia.
  - assert (0 < 2 ^ (eb - Z.min eb ea)) by (apply Z.pow_pos_nonneg; lia).
    assert (0 < 2 ^ (ea - Z.min eb ea)) by (apply Z.pow_pos_nonneg; lia).
    nia.
  - destruct (Z.compare_spec ea eb) as [->|Hlt|Hgt]; try discriminate.
    + rewrite Z.min_id, Z.sub_diag, !Z.mul_1_r.
      rewrite Pos.compare_cont_spec in Hcmp. cbn in Hcmp.
      destruct (Pos.compare_spec ma mb); try discriminate. lia.
    + rewrite Z.min_r, Z.sub_diag by lia. specialize (Hab Hlt). lia.
Qed.

Lemma bounded_emin m e :
  bounded prec emax m e = true → SpecFloat.emin prec emax ≤ e.
Proof.
  unfold bounded, canonical_mantissa, fexp.
  intros [Hc _]%andb_true_iff. apply Z.eqb_eq in Hc. lia.
Qed.

Lemma binary_normalize_pos m e :
  0 < m → SpecFloat.emin prec emax ≤ e →
  is_pos (binary_normalize prec emax m e false) = true.
Proof.
  intros Hm He. destruct m as [|m|m]; [lia| |lia].
  cbn [binary_normalize].
  pose proof (binary_round_pos prec emax eq_refl false m e He) as Hs.
  by destruct (binary_round prec emax false m e); subst.
Qed.

(** When [a < b] holds on valid doubles, [b - a] is positive: a difference
    of doubles does not underflow to zero. *)
Lemma sub_pos a b :
  valid a = true → valid b = true → ltb a b = true → is_pos (sub b a) = true.
Proof.
  intros Ha Hb Hlt. unfold ltb, SFltb in Hlt.
  destruct (SFcompare a b) as [[]|] eqn:Hcmp; try discriminate. clear Hlt.
  destruct a as [sa|sa| |sa ma ea], b as [sb|sb| |sb mb eb];
    cbn in Hcmp; try discriminate;
    try (by repeat match goal with s : bool |- _ => destruct s end).
  unfold sub. cbn [SFsub]. apply binary_normalize_pos.
  - by apply finite_lt_difference.
  - apply bounded_emin in Ha, Hb. lia.
Qed.

(** ** The analysis loop of app.py *)

Lemma app_loop_body_spec segments i times ints t :
  segments !! i = Some t →
  App.loop_body segments i (times, ints)
  = (add_time (label t) (duration t) times, ints ++ events_at segments i).
Proof.
  intros Hi. unfold App.loop_body, events_at. rewrite Hi.
  destruct t as [[turn tr] speaker]. cbn [label duration fst snd].
  destruct (0 <? i)%nat; cbn.
  - destruct (segments !! (i - 1)%nat) as [[[prev_turn ptr] prev_speaker]|]; cbn.
    + destruct (ltb (start turn) (end_ prev_turn) && bool_decide (speaker ≠ prev_speaker));
        cbn; [done | by rewrite app_nil_r].
    + by rewrite app_nil_r.
  - by rewrite app_nil_r.
Qed.

Lemma app_loop_prefix segments k :
  (k ≤ length segments)%nat →
  foldl (fun st i => App.loop_body segments i st) (∅, []) (seq 0 k)
  = (accumulate (take k segments), concat (events_at segments <$> seq 0 k)).
Proof.
  induction k as [|k IH]; intros Hk.
  - by rewrite take_0.
  - rewrite seq_S, foldl_app, IH by lia. cbn [foldl Nat.add].
    destruct (lookup_lt_is_Some_2 segments k) as [t Ht]; [lia|].
    rewrite (app_loop_body_spec _ _ _ _ t Ht).
    rewrite (take_S_r _ _ _ Ht). unfold accumulate at 2. rewrite foldl_app. cbn [foldl].
    rewrite fmap_app, concat_app. cbn. by rewrite app_nil_r.
Qed.

Lemma app_analyze_spec segments :
  App.analyze segments
  = (accumulate segments, concat (events_at segments <$> seq 0 (length segments))).
Proof.
  unfold App.analyze. rewrite app_loop_prefix by lia. by rewrite firstn_all.
Qed.

Lemma events_at_pos segments i :
  (1 ≤ i)%nat →
  events_at segments i
  = option_list (previous ← segments !! (i - 1)%nat; current ← segments !! i;
                 Spec.pair_event previous current).
Proof.
  intros Hi. unfold events_at.
  by destruct (Nat.ltb_spec 0 i) as [_|?]; [|lia].
Qed.

Lemma concat_events_from segments a n :
  (1 ≤ a)%nat →
  concat (events_at segments <$> seq a n)
  = omap (fun i => previous ← segments !! (i - 1)%nat; current ← segments !! i;
                   Spec.pair_event previous current) (seq a n).
Proof.
  revert a. induction n as [|n IH]; intros a Ha; [done|].
  cbn [seq fmap list_fmap concat omap list_omap].
  rewrite IH by lia. rewrite events_at_pos by lia.
  by destruct (_ ≫= _).
Qed.

Lemma concat_events_detector segments :
  concat (events_at segments <$> seq 0 (length segments)) = Spec.detector segments.
Proof.
  unfold Spec.detector. destruct (length segments) as [|n]; [done|].
  cbn [seq fmap list_fmap concat]. cbn [events_at Nat.ltb Nat.leb option_list mbind option_bind app].
  rewrite Nat.sub_succ, Nat.sub_0_r. by apply concat_events_from.
Qed.

Lemma app_analyze_detector segments :
  App.analyze segments = (accumulate segments, Spec.detector segments).
Proof. by rewrite app_analyze_spec, concat_events_detector. Qed.

Lemma accumulate_snoc segments t :
  accumulate (segments ++ [t]) = add_time (label t) (duration t) (accumulate segments).
Proof. unfold accumulate. by rewrite foldl_app. Qed.

Lemma app_run_spec segments :
  App.run segments
  = Completed (build_report (accumulate segments) (Spec.detector segments),
               export_csv (Spec.detector segments)).
Proof. unfold App.run. by rewrite app_analyze_detector. Qed.

Lemma voice_agent_loop_body_eq segments i st :
  VoiceAgent.loop_body segments i st = App.loop_body segments i st.
Proof. done. Qed.

Lemma snoc_neq {A} (l : list A) (x : A) : l ++ [x] ≠ l.
Proof.
  intros H. apply (f_equal length) in H. rewrite length_app in H. cbn in H. lia.
Qed.

(** ** Sample turns *)

Example sample_run_adjacent :
  snd (App.analyze [turn_of 0 5 "X"; turn_of 3 8 "Y"; turn_of 10 12 "X"])
  = [ {| time := of_Z 3; interrupter := "Y"; interrupted := "X";
         overlap_duration := of_Z 2 |} ].
Proof. vm_compute. reflexivity. Qed.

(** ** The relabelling of voice_ai_agent_custom.py *)

Lemma uint_of_string_zero_pad k s :
  NilEmpty.uint_of_string (Custom.zero_pad k s)
  = Nat.iter k Decimal.D0 <$> NilEmpty.uint_of_string s.
Proof.
  induction k as [|k IH]; cbn [Custom.zero_pad Nat.iter nat_rect].
  - by destruct (NilEmpty.uint_of_string s).
  - cbn [NilEmpty.uint_of_string]. rewrite IH.
    by destruct (NilEmpty.uint_of_string s).
Qed.

Lemma of_uint_leading_zeros k d :
  Nat.of_uint (Nat.iter k Decimal.D0 d) = Nat.of_uint d.
Proof. induction k as [|k IH]; [done|]. cbn [Nat.iter nat_rect]. apply IH. Qed.

Lemma parse_format_02d n : Custom.parse_02d (Custom.format_02d n) = Some n.
Proof.
  unfold Custom.parse_02d, Custom.format_02d.
  rewrite uint_of_string_zero_pad, NilEmpty.usu. cbn [fmap option_fmap option_map].
  by rewrite of_uint_leading_zeros, DecimalNat.Unsigned.of_to.
Qed.

Lemma speaker_label_inj n m :
  Custom.speaker_label n = Custom.speaker_label m → n = m.
Proof.
  unfold Custom.speaker_label. intros H.
  assert (Hf : Custom.format_02d n = Custom.format_02d m)
    by exact (String.app_inj _ _ _ H).
  apply (f_equal Custom.parse_02d) in Hf. rewrite !parse_format_02d in Hf. congruence.
Qed.

Lemma custom_convert_from acc segmentation :
  foldl Custom.convert_item acc segmentation
  = acc ++ imap (fun i => Custom.labelled (length acc + i))
                (omap Custom.accepted segmentation).
Proof.
  revert acc. induction segmentation as [|it its IH]; intros acc.
  - cbn. by rewrite app_nil_r.
  - cbn [foldl]. rewrite IH.
    destruct it as [[|[s| |] elems]|]; cbn [Custom.convert_item Custom.accepted omap list_omap]; try done.
    cbn [imap]. rewrite <- app_assoc. cbn [app]. rewrite Nat.add_0_r. do 2 f_equal.
    apply imap_ext. intros i x _. cbn. rewrite length_app. cbn. f_equal. lia.
Qed.

Lemma custom_convert_spec segmentation :
  Custom.convert segmentation
  = imap Custom.labelled (omap Custom.accepted segmentation).
Proof. unfold Custom.convert. by rewrite custom_convert_from. Qed.

Lemma custom_labels segmentation :
  Custom.seg_speaker <$> Custom.convert segmentation
  = Custom.speaker_label <$> seq 0 (length (omap Custom.accepted segmentation)).
Proof.
  rewrite custom_convert_spec, fmap_imap.
  by rewrite <- (imap_seq_0 (omap Custom.accepted segmentation) Custom.speaker_label).
Qed.

Lemma custom_labels_NoDup segmentation :
  NoDup (Custom.seg_speaker <$> Custom.convert segmentation).
Proof.
  rewrite custom_labels. apply NoDup_fmap_2; [|apply NoDup_seq].
  intros n m. apply speaker_label_inj.
Qed.

Lemma custom_convert_length segmentation :
  length (Custom.convert segmentation) = length (omap Custom.accepted segmentation).
Proof. by rewrite custom_convert_spec, length_imap. Qed.

(** ** The loop of voice_ai_agent_custom.py *)

Lemma custom_loop_times segments ps st :
  fst (foldl (Custom.loop_body segments) st ps)
  = foldl (fun times p =>
             add_time (Custom.seg_speaker p.2)
                      (sub (Custom.seg_end p.2) (Custom.seg_start p.2)) times)
          (fst st) ps.
Proof.
  revert st. induction ps as [|[i segment] ps IH]; intros [times ints]; [done|].
  cbn [foldl]. rewrite IH. f_equal.
  unfold Custom.loop_body. cbn [snd].
  destruct (0 <? i)%nat; [|done].
  destruct (segments !! (i - 1)%nat); [|done].
  by destruct (ltb _ _).
Qed.

Lemma add_times_fresh (ps : list (nat * Custom.seg)) (times : gmap string float) :
  NoDup ((Custom.seg_speaker ∘ snd) <$> ps) →
  (∀ p, p ∈ ps → times !! Custom.seg_speaker p.2 = None) →
  size (foldl (fun times p =>
                 add_time (Custom.seg_speaker p.2)
                          (sub (Custom.seg_end p.2) (Custom.seg_start p.2)) times)
              times ps)
  = (size times + length ps)%nat.
Proof.
  revert times. induction ps as [|p ps IH]; intros times Hnd Hfresh.
  - cbn. lia.
  - cbn [foldl]. apply NoDup_cons in Hnd as [Hp Hnd].
    rewrite IH; [| done |].
    + unfold add_time. rewrite map_size_insert_None by (apply Hfresh; left).
      cbn [length]. lia.
    + intros q Hq. unfold add_time. rewrite lookup_insert_ne.
      * apply Hfresh. by right.
      * intros Heq. apply Hp. apply list_elem_of_fmap. exists q. by split.
Qed.

Lemma custom_analyze_size segments :
  NoDup (Custom.seg_speaker <$> segments) →
  size (fst (Custom.analyze_segments segments)) = length segments.
Proof.
  intros Hnd. unfold Custom.analyze_segments. rewrite custom_loop_times.
  rewrite add_times_fresh.
  - cbn [fst]. rewrite map_size_empty, length_zip_with, length_seq. lia.
  - rewrite list_fmap_compose, snd_zip; [done|]. rewrite length_seq. lia.
  - intros p _. apply lookup_empty.
Qed.

(** One iteration of the loop of the relabelled segments: the test reads
    the two times only. *)
Lemma custom_loop_body_spec segments i previous current times ints :
  (1 ≤ i)%nat →
  segments !! (i - 1)%nat = Some previous →
  snd (Custom.loop_body segments (times, ints) (i, current))
  = ints ++
    if ltb (Custom.seg_start current) (Custom.seg_end previous)
    then [ {| time := round2 (Custom.seg_start current);
              interrupter := Custom.seg_speaker current;
              interrupted := Custom.seg_speaker previous;
              overlap_duration :=
                round2 (sub (Custom.seg_end previous) (Custom.seg_start current)) |} ]
    else [].
Proof.
  intros Hi Hprev. unfold Custom.loop_body. rewrite Hprev.
  destruct (Nat.ltb_spec 0 i) as [_|?]; [|lia].
  destruct (ltb _ _); cbn [snd]; [done | by rewrite app_nil_r].
Qed.

(** Every event of the loop comes from an iteration whose segment starts
    before the previous one ends. *)
Lemma custom_loop_events segments ps st e :
  e ∈ snd (foldl (Custom.loop_body segments) st ps) →
  e ∈ snd st
  ∨ ∃ i current previous,
      (i, current) ∈ ps ∧ (1 ≤ i)%nat ∧ segments !! (i - 1)%nat = Some previous
      ∧ ltb (Custom.seg_start current) (Custom.seg_end previous) = true
      ∧ interrupter e = Custom.seg_speaker current
      ∧ interrupted e = Custom.seg_speaker previous.
Proof.
  revert st. induction ps as [|[i current] ps IH]; intros [times ints]; [by left|].
  cbn [foldl]. intros [Hin|(j & cur & prev & Hj & Hrest)]%IH.
  - destruct (decide (1 ≤ i)%nat) as [Hi|Hi].
    + destruct (segments !! (i - 1)%nat) as [previous|] eqn:Hprev.
      * rewrite (custom_loop_body_spec _ _ previous) in Hin by done.
        destruct (ltb _ _) eqn:Hlt.
        -- apply elem_of_app in Hin as [Hin|Hin]; [by left|].
           apply list_elem_of_singleton in Hin as ->. right.
           exists i, current, previous. split_and!; try done. left.
        -- rewrite app_nil_r in Hin. by left.
      * unfold Custom.loop_body in Hin. rewrite Hprev in Hin.
        left. by destruct (0 <? i)%nat.
    + unfold Custom.loop_body in Hin.
      destruct (Nat.ltb_spec 0 i) as [?|_]; [lia|]. by left.
  - right. exists j, cur, prev. split; [by right | done].
Qed.

(** The relabelled segments of an adjacent pair never share a label, so
    no event of a run has the same interrupter and interrupted. *)
Lemma custom_events_distinct segmentation e :
  e ∈ snd (Custom.analyze_speakers_and_interruptions segmentation) →
  interrupter e ≠ interrupted e.
Proof.
  unfold Custom.analyze_speakers_and_interruptions, Custom.analyze_segments.
  intros [Hin|(i & current & previous & Hi & Hpos & Hprev & _ & -> & ->)]%custom_loop_events.
  - by apply not_elem_of_nil in Hin.
  - apply list_elem_of_lookup in Hi as [j Hj].
    apply lookup_zip_with_Some in Hj as (x & y & [= -> ->] & Hx & Hy).
    apply lookup_seq in Hx as [-> _]. cbn [Nat.add] in *.
    rewrite custom_convert_spec, list_lookup_imap in Hprev, Hy.
    destruct (omap Custom.accepted segmentation !! j); [|done].
    destruct (omap Custom.accepted segmentation !! (j - 1)%nat); [|done].
    cbn in Hprev, Hy. simplify_eq. cbn.
    intros Heq%speaker_label_inj. lia.
Qed.

(** ** Totals per speaker *)

Lemma durations_of_cons_eq t segments :
  durations_of (label t) (t :: segments) = duration t :: durations_of (label t) segments.
Proof. unfold durations_of. by rewrite filter_cons_True. Qed.

Lemma durations_of_cons_ne speaker t segments :
  label t ≠ speaker →
  durations_of speaker (t :: segments) = durations_of speaker segments.
Proof. intros Hne. unfold durations_of. by rewrite filter_cons_False. Qed.

Lemma accumulate_from_lookup segments (times : gmap string float) speaker :
  foldl (fun times t => add_time (label t) (duration t) times) times segments !! speaker
  = match durations_of speaker segments with
    | [] => times !! speaker
    | ds => Some (foldl add (default zero (times !! speaker)) ds)
    end.
Proof.
  revert times. induction segments as [|t segments IH]; intros times; [done|].
  cbn [foldl]. rewrite IH. unfold add_time.
  destruct (decide (label t = speaker)) as [<-|Hne].
  - rewrite durations_of_cons_eq, lookup_insert_eq. cbn [default foldl].
    by destruct (durations_of (label t) segments).
  - rewrite durations_of_cons_ne, lookup_insert_ne by done. done.
Qed.

Lemma accumulate_lookup segments speaker :
  accumulate segments !! speaker
  = match durations_of speaker segments with
    | [] => None
    | ds => Some (running_total ds)
    end.
Proof. unfold accumulate. rewrite accumulate_from_lookup. by rewrite lookup_empty. Qed.

Lemma durations_of_nil_iff speaker segments :
  durations_of speaker segments = [] ↔ ∀ t, t ∈ segments → label t ≠ speaker.
Proof.
  unfold durations_of. split.
  - intros Hnil%fmap_nil_inv t Ht Heq.
    assert (Hin : t ∈ filter (fun t => label t = speaker) segments)
      by (apply list_elem_of_filter; done).
    rewrite Hnil in Hin. by apply not_elem_of_nil in Hin.
  - intros Hall. induction segments as [|t segments IH]; [done|].
    rewrite filter_cons_False by (apply Hall; left).
    apply IH. intros t' Ht'. apply Hall. by right.
Qed.

Lemma accumulate_is_Some segments speaker :
  is_Some (accumulate segments !! speaker) ↔ ∃ t, t ∈ segments ∧ label t = speaker.
Proof.
  rewrite accumulate_lookup. split.
  - intros Hsome.
    destruct (decide (Exists (fun t => label t = speaker) segments)) as [Hex|Hno].
    + by apply Exists_exists in Hex.
    + assert (Hnil : durations_of speaker segments = []).
      { apply durations_of_nil_iff. intros t Ht Heq. apply Hno, Exists_exists. eauto. }
      rewrite Hnil in Hsome. by destruct Hsome.
  - intros (t & Ht & Heq).
    destruct (durations_of speaker segments) eqn:Hds; [|by eexists].
    by destruct (proj1 (durations_of_nil_iff _ _) Hds t Ht).
Qed.

Lemma accumulate_dom_perm (segments segments' : list track) :
  segments ≡ₚ segments' → dom (accumulate segments) = dom (accumulate segments').
Proof.
  intros Hperm. apply set_eq. intros speaker.
  rewrite !elem_of_dom, !accumulate_is_Some.
  by setoid_rewrite Hperm.
Qed.

Lemma detector_speakers_differ segments e :
  e ∈ Spec.detector segments → interrupter e ≠ interrupted e.
Proof.
  unfold Spec.detector. rewrite list_elem_of_omap. intros (i & _ & Hi).
  destruct (segments !! (i - 1)%nat) as [[[prev_turn ptr] prev_speaker]|]; [|done].
  destruct (segments !! i) as [[[turn tr] speaker]|]; [|done].
  cbn in Hi. destruct (ltb _ _); cbn in Hi; [|done].
  case_bool_decide; [|done]. by simplify_eq.
Qed.

Lemma voice_agent_analyze_eq (segments : list track) :
  fst (VoiceAgent.analyze segments) = fst (App.analyze segments)
  ∧ snd (VoiceAgent.analyze segments) = snd (App.analyze segments).
Proof.
  unfold VoiceAgent.analyze, App.analyze.
  generalize (seq 0 (length segments)).
  generalize ((∅, []) : gmap string float * list interruption).
  intros st l. revert st. induction l as [|i l IH]; intros st; [done|].
  cbn [foldl]. rewrite voice_agent_loop_body_eq. apply IH.
Qed.

(** Every event of the detector comes from an adjacent pair that passes
    both tests. *)
Lemma detector_event_origin segments e :
  e ∈ Spec.detector segments →
  ∃ i prev_turn prev_track prev_speaker turn cur_track speaker,
    segments !! i = Some (prev_turn, prev_track, prev_speaker)
    ∧ segments !! S i = Some (turn, cur_track, speaker)
    ∧ ltb (start turn) (end_ prev_turn) = true
    ∧ speaker ≠ prev_speaker
    ∧ e = {| time := round2 (start turn);
             interrupter := speaker;
             interrupted := prev_speaker;
             overlap_duration := round2 (sub (end_ prev_turn) (start turn)) |}.
Proof.
  unfold Spec.detector. rewrite list_elem_of_omap. intros (i & Hin & Hi).
  apply elem_of_seq in Hin. destruct i as [|i]; [lia|].
  cbn [Nat.sub] in Hi. rewrite Nat.sub_0_r in Hi.
  destruct (segments !! i) as [[[prev_turn ptr] prev_speaker]|] eqn:Hp; [|done].
  destruct (segments !! S i) as [[[turn tr] speaker]|] eqn:Hc; [|done].
  cbn in Hi. destruct (ltb (start turn) (end_ prev_turn)) eqn:Hlt; cbn in Hi; [|done].
  case_bool_decide as Hne; [|done]. simplify_eq.
  by eexists i, _, _, _, _, _, _.
Qed.

(** ** Properties of the specification *)

(** C1, as amended: no turn is rejected.  For every turn sequence, also one
    with a turn whose [end] is below its [start], the run completes with a
    report and a CSV table, and the accumulator adds [end - start] of every
    turn, whatever its sign, to the running total of its speaker. *)
Theorem C1_no_turn_is_rejected (segments : list track) :
  App.run segments
  = Completed (build_report (accumulate segments) (snd (App.analyze segments)),
               export_csv (snd (App.analyze segments)))
  ∧ fst (App.analyze segments) = accumulate segments
  ∧ ∀ t : track,
      accumulate (segments ++ [t])
      = <[label t := add (default zero (accumulate segments !! label t))
                         (sub (end_ t.1.1) (start t.1.1))]> (accumulate segments).
Proof.
  rewrite app_run_spec, app_analyze_detector. split_and!; [done..|].
  intros t. by rewrite accumulate_snoc.
Qed.

(** C1 fails on the code: the single turn [(5, 3, "X")] has [end < start],
    yet the run raises nothing and reports the total [-2.0] for ["X"]. *)
Lemma C1_negative_turn_is_added :
  let segments := [turn_of 5 3 "X"] in
  (∃ t : track, t ∈ segments ∧ ltb (end_ t.1.1) (start t.1.1) = true)
  ∧ (¬ ∃ exc, App.run segments = Raised exc)
  ∧ fst (App.analyze segments) !! "X"%string = Some (of_Z (-2))
  ∧ ∃ r c, App.run segments = Completed (r, c)
           ∧ total_speakers r = 1%nat
           ∧ speaking_times r !! "X"%string = Some (of_Z (-2)).
Proof.
  cbv zeta. split_and!.
  - exists (turn_of 5 3 "X"). split; [set_solver | by vm_compute].
  - intros [exc H]. rewrite app_run_spec in H. discriminate.
  - by vm_compute.
  - eexists _, _. rewrite app_run_spec. split_and!; [reflexivity | by vm_compute..].
Qed.

(** C2: at every index [i >= 1] the loop appends an event for the pair
    (turn [i - 1], turn [i]) exactly when the current turn starts before the
    previous one ends and the two speakers differ; the event carries
    [round(current.start, 2)], the current speaker, the previous speaker
    and [round(previous.end - current.start, 2)].  The list of the whole run
    is the list of these events for [i] from 1 to [n - 1], in order. *)
Theorem C2_event_iff_overlap_and_other_speaker
    (segments : list track) (i : nat)
    (prev_turn turn : Segment) (prev_track cur_track prev_speaker speaker : string)
    (times : gmap string float) (ints : list interruption) :
  (1 ≤ i)%nat →
  segments !! (i - 1)%nat = Some (prev_turn, prev_track, prev_speaker) →
  segments !! i = Some (turn, cur_track, speaker) →
  let event := {| time := round2 (start turn);
                  interrupter := speaker;
                  interrupted := prev_speaker;
                  overlap_duration := round2 (sub (end_ prev_turn) (start turn)) |} in
  let ints' := snd (App.loop_body segments i (times, ints)) in
  (ints' = ints ++ [event] ∨ ints' = ints)
  ∧ (ints' = ints ++ [event]
     ↔ ltb (start turn) (end_ prev_turn) = true ∧ speaker ≠ prev_speaker)
  ∧ snd (App.analyze segments) = Spec.detector segments.
Proof.
  intros Hi Hprev Hcur event ints'.
  assert (Hints : ints' = ints ++
            if ltb (start turn) (end_ prev_turn) && bool_decide (speaker ≠ prev_speaker)
            then [event] else []).
  { subst ints'. rewrite (app_loop_body_spec _ _ _ _ _ Hcur). cbn [snd].
    rewrite events_at_pos, Hprev, Hcur by done. cbn.
    by destruct (ltb _ _ && _). }
  split_and!; [| |by rewrite app_analyze_detector].
  - rewrite Hints. destruct (ltb _ _ && _); [by left | right; apply app_nil_r].
  - rewrite Hints.
    destruct (ltb (start turn) (end_ prev_turn)) eqn:Hlt; cbn.
    + case_bool_decide as Hne; cbn.
      * split; [done|]. done.
      * rewrite app_nil_r. split; [|by intros [_ ?]].
        intros H. exfalso. exact (snoc_neq _ _ (eq_sym H)).
    + rewrite app_nil_r. split; [|by intros [? _]].
      intros H. exfalso. exact (snoc_neq _ _ (eq_sym H)).
Qed.

Lemma C2_witness :
  let segments := [turn_of 0 5 "X"; turn_of 3 8 "Y"; turn_of 10 12 "X"] in
  let event := {| time := round2 (of_Z 3); interrupter := "Y"; interrupted := "X";
                  overlap_duration := round2 (sub (of_Z 5) (of_Z 3)) |} in
  let ints' := snd (App.loop_body segments 1 (∅, [])) in
  (ints' = [] ++ [event] ∨ ints' = [])
  ∧ (ints' = [] ++ [event]
     ↔ ltb (of_Z 3) (of_Z 5) = true ∧ "Y"%string ≠ "X"%string)
  ∧ snd (App.analyze segments) = Spec.detector segments.
Proof.
  exact (C2_event_iff_overlap_and_other_speaker
           [turn_of 0 5 "X"; turn_of 3 8 "Y"; turn_of 10 12 "X"] 1
           {| start := of_Z 0; end_ := of_Z 5 |} {| start := of_Z 3; end_ := of_Z 8 |}
           "A" "A" "X" "Y" ∅ []
           (le_n 1) eq_refl eq_refl).
Defined.

(** C6: the loop of [voice_ai_agent.py] and the loop of [app.py] give, on
    every segment list, the same speaking-time mapping and the same ordered
    interruption list. *)
Theorem C6_voice_agent_equals_app (segments : list track) :
  fst (VoiceAgent.analyze segments) = fst (App.analyze segments)
  ∧ snd (VoiceAgent.analyze segments) = snd (App.analyze segments).
Proof. apply voice_agent_analyze_eq. Qed.

(** C7: the turns A(0,5,"X"), B(3,8,"Y"), C(10,12,"X") give exactly one
    event, for the pair (A,B): time 3.0, interrupter "Y", interrupted "X",
    overlap 2.0; the pair (B,C) gives none, as 10 >= 8. *)
Theorem C7_three_turns_one_event :
  let A := turn_of 0 5 "X" in
  let B := turn_of 3 8 "Y" in
  let C := turn_of 10 12 "X" in
  let event := {| time := dec 30 10; interrupter := "Y"; interrupted := "X";
                  overlap_duration := dec 20 10 |} in
  snd (App.analyze [A; B; C]) = [event]
  ∧ events_at [A; B; C] 1 = [event]
  ∧ events_at [A; B; C] 2 = []
  ∧ ltb (start C.1.1) (end_ B.1.1) = false
  ∧ leb (end_ B.1.1) (start C.1.1) = true.
Proof. cbv zeta. split_and!; by vm_compute. Qed.

(** C8: the report built from a mapping and an interruption list has
    [total_speakers] equal to the number of distinct keys of the mapping,
    [total_interruptions] equal to the length of the list, carries the list
    unchanged, and maps every speaker to [round(total, 2)]. *)
Theorem C8_report_fields (times : gmap string float) (ints : list interruption) :
  let r := build_report times ints in
  total_speakers r = size (dom times)
  ∧ total_interruptions r = length ints
  ∧ interruptions r = ints
  ∧ dom (speaking_times r) = dom times
  ∧ ∀ speaker, speaking_times r !! speaker = round2 <$> times !! speaker.
Proof.
  cbn. split_and!; try done.
  - by rewrite size_dom.
  - by rewrite dom_fmap_L.
  - intros speaker. by rewrite lookup_fmap.
Qed.

(** C9: on the empty turn sequence the run completes; the report has zero
    speakers, zero interruptions, an empty mapping and an empty list, and
    the CSV table has the four column names and no row. *)
Theorem C9_empty_input :
  App.run []
  = Completed ({| total_speakers := 0; speaking_times := ∅;
                  total_interruptions := 0; interruptions := [] |},
               {| columns := ["time"; "interrupter"; "interrupted";
                              "overlap_duration"]%string;
                  rows := [] |}).
Proof. reflexivity. Qed.

(** C3, as amended: in [app.py] and [voice_ai_agent.py] an adjacent pair of
    turns of one speaker adds no event, overlapping or not, so no event of a
    run has the same interrupter and interrupted, and A(0,5,"X"),
    B(3,8,"X") give no event.  [analyze_speakers_and_interruptions]
    relabels the segments by position, so its events too have distinct
    interrupter and interrupted, but it has no speaker test: an adjacent
    pair adds an event exactly when the current segment starts before the
    previous one ends. *)
Theorem C3_same_speaker_suppressed_outside_custom
    (segments : list track) (i : nat) (prev_turn turn : Segment)
    (prev_track cur_track speaker : string)
    (times : gmap string float) (ints : list interruption) :
  (1 ≤ i)%nat →
  segments !! (i - 1)%nat = Some (prev_turn, prev_track, speaker) →
  segments !! i = Some (turn, cur_track, speaker) →
  snd (App.loop_body segments i (times, ints)) = ints
  ∧ snd (VoiceAgent.loop_body segments i (times, ints)) = ints
  ∧ (∀ e, e ∈ snd (App.analyze segments) → interrupter e ≠ interrupted e)
  ∧ (∀ e, e ∈ snd (VoiceAgent.analyze segments) → interrupter e ≠ interrupted e)
  ∧ snd (App.analyze [turn_of 0 5 "X"; turn_of 3 8 "X"]) = []
  ∧ snd (VoiceAgent.analyze [turn_of 0 5 "X"; turn_of 3 8 "X"]) = []
  ∧ (∀ segmentation e,
       e ∈ snd (Custom.analyze_speakers_and_interruptions segmentation) →
       interrupter e ≠ interrupted e)
  ∧ ∀ (relabelled : list Custom.seg) (previous current : Custom.seg),
      relabelled !! (i - 1)%nat = Some previous →
      snd (Custom.loop_body relabelled (times, ints) (i, current))
      = ints ++
        if ltb (Custom.seg_start current) (Custom.seg_end previous)
        then [ {| time := round2 (Custom.seg_start current);
                  interrupter := Custom.seg_speaker current;
                  interrupted := Custom.seg_speaker previous;
                  overlap_duration :=
                    round2 (sub (Custom.seg_end previous) (Custom.seg_start current)) |} ]
        else [].
Proof.
  intros Hi Hprev Hcur.
  assert (Happ : snd (App.loop_body segments i (times, ints)) = ints).
  { rewrite (app_loop_body_spec _ _ _ _ _ Hcur). cbn [snd].
    rewrite events_at_pos, Hprev, Hcur by done. cbn.
    rewrite bool_decide_eq_false_2 by (by intros []).
    rewrite andb_false_r. apply app_nil_r. }
  assert (Hne : ∀ e, e ∈ snd (App.analyze segments) → interrupter e ≠ interrupted e)
    by (rewrite app_analyze_detector; apply detector_speakers_differ).
  split_and!.
  - exact Happ.
  - by rewrite voice_agent_loop_body_eq.
  - exact Hne.
  - intros e. rewrite (proj2 (voice_agent_analyze_eq segments)). apply Hne.
  - by vm_compute.
  - by vm_compute.
  - apply custom_events_distinct.
  - intros relabelled previous current Hp. by apply custom_loop_body_spec.
Qed.

Lemma C3_witness :
  let segments := [turn_of 0 5 "X"; turn_of 3 8 "X"] in
  snd (App.loop_body segments 1 (∅, [])) = []
  ∧ snd (VoiceAgent.loop_body segments 1 (∅, [])) = [].
Proof.
  pose proof (C3_same_speaker_suppressed_outside_custom
                [turn_of 0 5 "X"; turn_of 3 8 "X"] 1
                {| start := of_Z 0; end_ := of_Z 5 |} {| start := of_Z 3; end_ := of_Z 8 |}
                "A" "A" "X" ∅ [] (le_n 1) eq_refl eq_refl) as (H1 & H2 & _).
  exact (conj H1 H2).
Defined.

(** C3 fails on [voice_ai_agent_custom.py]: the segments (0,5) and (3,8),
    both coming with the upstream label "X", are relabelled SPEAKER_00 and
    SPEAKER_01 and give one event. *)
Lemma C3_custom_emits_on_same_upstream_speaker :
  snd (Custom.analyze_speakers_and_interruptions
         [ Custom.ItemTuple [Custom.ObjSegment {| start := of_Z 0; end_ := of_Z 5 |};
                             Custom.ObjLabel "X"];
           Custom.ItemTuple [Custom.ObjSegment {| start := of_Z 3; end_ := of_Z 8 |};
                             Custom.ObjLabel "X"] ])
  = [ {| time := of_Z 3; interrupter := "SPEAKER_01"; interrupted := "SPEAKER_00";
         overlap_duration := of_Z 2 |} ].
Proof. by vm_compute. Qed.

(** C10: the accepted segments are labelled [SPEAKER_00], [SPEAKER_01], ...
    by position, whatever else their items carry; the labels of one run are
    pairwise distinct, so the mapping has one entry per accepted segment and
    [total_speakers] is their number; the result is a function of the
    accepted [Segment] objects alone. *)
Theorem C10_fresh_label_per_segment (segmentation : list Custom.item) :
  let segments := Custom.convert segmentation in
  segments
  = imap (fun i s => {| Custom.seg_start := start s; Custom.seg_end := end_ s;
                        Custom.seg_speaker := Custom.speaker_label i |})
         (omap Custom.accepted segmentation)
  ∧ NoDup (Custom.seg_speaker <$> segments)
  ∧ size (fst (Custom.analyze_speakers_and_interruptions segmentation)) = length segments
  ∧ total_speakers (Custom.main_report segmentation) = length segments
  ∧ length segments = length (omap Custom.accepted segmentation)
  ∧ Custom.analyze_speakers_and_interruptions segmentation
    = Custom.analyze_segments
        (imap Custom.labelled (omap Custom.accepted segmentation)).
Proof.
  cbv zeta.
  assert (Hsize : size (fst (Custom.analyze_speakers_and_interruptions segmentation))
                  = length (Custom.convert segmentation))
    by apply custom_analyze_size, custom_labels_NoDup.
  split_and!.
  - apply custom_convert_spec.
  - apply custom_labels_NoDup.
  - done.
  - unfold Custom.main_report.
    destruct (Custom.analyze_speakers_and_interruptions segmentation) as [times ints].
    done.
  - apply custom_convert_length.
  - unfold Custom.analyze_speakers_and_interruptions.
    by rewrite custom_convert_spec.
Qed.

(** C5, as amended: a permutation of the turns leaves the speaker keys of
    the mapping unchanged, and leaves the total of a speaker unchanged
    whenever the turns of that speaker keep their relative order, however
    they interleave with the turns of the others: the total is the float
    sum, from 0.0 and in turn order, of the durations of that speaker. *)
Theorem C5_total_depends_on_own_turn_order
    (segments segments' : list track) (speaker : string) :
  segments ≡ₚ segments' →
  filter (fun t => label t = speaker) segments
  = filter (fun t => label t = speaker) segments' →
  dom (fst (App.analyze segments)) = dom (fst (App.analyze segments'))
  ∧ fst (App.analyze segments) !! speaker = fst (App.analyze segments') !! speaker
  ∧ fst (App.analyze segments) !! speaker
    = match durations_of speaker segments with
      | [] => None
      | ds => Some (foldl add zero ds)
      end.
Proof.
  intros Hperm Hown. rewrite !app_analyze_detector. cbn [fst].
  split_and!.
  - by apply accumulate_dom_perm.
  - rewrite !accumulate_lookup. unfold durations_of. by rewrite Hown.
  - apply accumulate_lookup.
Qed.

Lemma C5_witness :
  let segments := [turn_of 0 5 "X"; turn_of 3 8 "Y"; turn_of 10 12 "X"] in
  let segments' := [turn_of 3 8 "Y"; turn_of 0 5 "X"; turn_of 10 12 "X"] in
  dom (fst (App.analyze segments)) = dom (fst (App.analyze segments'))
  ∧ fst (App.analyze segments) !! "X"%string = fst (App.analyze segments') !! "X"%string
  ∧ fst (App.analyze segments) !! "X"%string
    = match durations_of "X" segments with
      | [] => None
      | ds => Some (foldl add zero ds)
      end.
Proof.
  exact (C5_total_depends_on_own_turn_order
           [turn_of 0 5 "X"; turn_of 3 8 "Y"; turn_of 10 12 "X"]
           [turn_of 3 8 "Y"; turn_of 0 5 "X"; turn_of 10 12 "X"] "X"
           (perm_swap _ _ _) eq_refl).
Defined.

(** C5 fails on the code: the turns (0, 0.1), (0, 0.2), (0, 0.3) of "X"
    total 0.6000000000000001 in this order and 0.6 in the reverse order. *)
Lemma C5_reordering_changes_total :
  let a := mk_turn (dec 0 1) (dec 1 10) "X" in
  let b := mk_turn (dec 0 1) (dec 2 10) "X" in
  let c := mk_turn (dec 0 1) (dec 3 10) "X" in
  [a; b; c] ≡ₚ [c; b; a]
  ∧ fst (App.analyze [a; b; c]) !! "X"%string = Some (dec 6000000000000001 10000000000000000)
  ∧ fst (App.analyze [c; b; a]) !! "X"%string = Some (dec 6 10)
  ∧ eqb (dec 6000000000000001 10000000000000000) (dec 6 10) = false
  ∧ fst (App.analyze [a; b; c]) ≠ fst (App.analyze [c; b; a]).
Proof.
  cbv zeta. split_and!.
  - exact (Permutation_rev [_; _; _]).
  - by vm_compute.
  - by vm_compute.
  - by vm_compute.
  - intros H. apply (f_equal (fun m : gmap string float => m !! "X"%string)) in H.
    vm_compute in H. discriminate H.
Qed.

(** C4, as amended: on valid doubles every event has an [overlap_duration]
    that is [>= 0.0]: it is [round(previous.end - current.start, 2)] of an
    adjacent pair whose raw overlap is [> 0.0], and rounding to two decimals
    can bring a positive overlap down to [0.0]. *)
Theorem C4_overlap_duration_not_negative
    (segments : list track) (e : interruption) :
  Forall valid_track segments →
  e ∈ snd (App.analyze segments) →
  leb zero (overlap_duration e) = true
  ∧ ∃ i previous current,
      segments !! i = Some previous ∧ segments !! S i = Some current
      ∧ ltb (start current.1.1) (end_ previous.1.1) = true
      ∧ ltb zero (sub (end_ previous.1.1) (start current.1.1)) = true
      ∧ overlap_duration e = round2 (sub (end_ previous.1.1) (start current.1.1)).
Proof.
  intros Hvalid. rewrite app_analyze_detector. cbn [snd].
  intros (i & prev_turn & ptr & prev_speaker & turn & tr & speaker
          & Hp & Hc & Hlt & _ & ->)%detector_event_origin.
  destruct (Forall_lookup_1 _ _ _ _ Hvalid Hp) as [_ Hvp].
  destruct (Forall_lookup_1 _ _ _ _ Hvalid Hc) as [Hvc _].
  cbn [fst] in Hvp, Hvc.
  pose proof (sub_pos _ _ Hvc Hvp Hlt) as Hpos.
  cbn [overlap_duration]. split.
  - by apply is_nonneg_leb, round2_nonneg, is_pos_nonneg.
  - exists i, (prev_turn, ptr, prev_speaker), (turn, tr, speaker).
    cbn [fst]. split_and!; try done. by apply is_pos_ltb.
Qed.

Lemma C4_witness :
  leb zero (of_Z 2) = true
  ∧ ∃ i previous current,
      [turn_of 0 5 "X"; turn_of 3 8 "Y"; turn_of 10 12 "X"] !! i = Some previous
      ∧ [turn_of 0 5 "X"; turn_of 3 8 "Y"; turn_of 10 12 "X"] !! S i = Some current
      ∧ ltb (start current.1.1) (end_ previous.1.1) = true
      ∧ ltb zero (sub (end_ previous.1.1) (start current.1.1)) = true
      ∧ of_Z 2 = round2 (sub (end_ previous.1.1) (start current.1.1)).
Proof.
  apply (C4_overlap_duration_not_negative
           [turn_of 0 5 "X"; turn_of 3 8 "Y"; turn_of 10 12 "X"]
           {| time := of_Z 3; interrupter := "Y"; interrupted := "X";
              overlap_duration := of_Z 2 |}).
  - repeat constructor; vm_compute; reflexivity.
  - rewrite sample_run_adjacent. left.
Defined.

(** C4 fails on the code: the turns (0, 1.004, "X") and (1.0, 2.0, "Y")
    overlap by 0.004 and give an event whose [overlap_duration] is
    [round(0.004, 2) = 0.0], which is not [> 0]. *)
Lemma C4_overlap_duration_can_be_zero :
  let segments := [mk_turn (dec 0 1) (dec 1004 1000) "X";
                   mk_turn (dec 1 1) (dec 2 1) "Y"] in
  Forall valid_track segments
  ∧ snd (App.analyze segments)
    = [ {| time := dec 1 1; interrupter := "Y"; interrupted := "X";
           overlap_duration := zero |} ]
  ∧ ltb zero (sub (dec 1004 1000) (dec 1 1)) = true
  ∧ ¬ (∀ e, e ∈ snd (App.analyze segments) → ltb zero (overlap_duration e) = true).
Proof.
  cbv zeta.
  assert (Hrun : snd (App.analyze [mk_turn (dec 0 1) (dec 1004 1000) "X";
                                   mk_turn (dec 1 1) (dec 2 1) "Y"])
                 = [ {| time := dec 1 1; interrupter := "Y"; interrupted := "X";
                        overlap_duration := zero |} ]) by (by vm_compute).
  split_and!.
  - repeat constructor; by vm_compute.
  - exact Hrun.
  - by vm_compute.
  - rewrite Hrun. intros H. specialize (H _ (list_elem_of_here _ _)). discriminate H.
Qed.

(** ** Further properties of the analysis loop *)

Lemma length_omap_le {A B} (f : A → option B) (l : list A) :
  (length (omap f l) ≤ length l)%nat.
Proof.
  induction l as [|x l IH]; [done|]. cbn. destruct (f x); cbn; lia.
Qed.

Lemma length_remove_dups_le (l : list string) :
  (length (remove_dups l) ≤ length l)%nat.
Proof.
  induction l as [|x l IH]; [done|]. cbn. case_decide; cbn; lia.
Qed.

Lemma accumulate_dom segments :
  dom (accumulate segments) = list_to_set (label <$> segments).
Proof.
  apply set_eq. intros speaker.
  rewrite elem_of_dom, accumulate_is_Some, elem_of_list_to_set, list_elem_of_fmap.
  split; intros (t & H1 & H2); exists t; by split.
Qed.

Lemma events_at_app_l (l k : list track) i :
  (i < length l)%nat → events_at (l ++ k) i = events_at l i.
Proof.
  intros Hi. unfold events_at.
  rewrite (lookup_app_l l k i) by done.
  destruct (0 <? i)%nat; [|done].
  by rewrite (lookup_app_l l k (i - 1)) by lia.
Qed.

Lemma events_at_end (l : list track) t :
  events_at (l ++ [t]) (length l) = next_events l t.
Proof.
  unfold events_at, next_events.
  rewrite (list_lookup_middle l [] t (length l) eq_refl).
  destruct l as [|x l _] using rev_ind; [done|].
  rewrite length_app, last_snoc. cbn [length].
  destruct (Nat.ltb_spec 0 (length l + 1)) as [_|?]; [|lia].
  replace (length l + 1 - 1)%nat with (length l) by lia.
  rewrite <- app_assoc. change ([x] ++ [t]) with [x; t].
  by rewrite (list_lookup_middle l [t] x (length l) eq_refl).
Qed.

Lemma events_prefix (l k : list track) :
  concat (events_at (l ++ k) <$> seq 0 (length (l ++ k)))
  = concat (events_at l <$> seq 0 (length l))
    ++ concat (events_at (l ++ k) <$> seq (length l) (length k)).
Proof.
  rewrite length_app, seq_app, fmap_app, concat_app. f_equal. f_equal.
  apply list_fmap_ext. intros j i Hj. apply lookup_seq in Hj as [-> Hlt].
  by apply events_at_app_l.
Qed.

(** [round(x, 2)] of a number is a number. *)
Lemma round2_not_nan x : x ≠ S754_nan → round2 x ≠ S754_nan.
Proof.
  destruct x as [s|s| |s m e]; try done. intros _. unfold round2.
  destruct (hundredths m e) as [|q|q]; [done| |done].
  unfold of_ratio. pose proof (div_core_quotient_nonneg q 100) as Hq.
  destruct (SFdiv_core_binary prec emax (Zpos q) 0 100 0) as [[mz ez] lz].
  cbn [fst] in Hq.
  pose proof (binary_round_aux_sign prec emax s mz ez lz Hq) as Hs.
  by destruct (binary_round_aux prec emax s mz ez lz).
Qed.

Lemma binary_normalize_not_nan m e : binary_normalize prec emax m e false ≠ S754_nan.
Proof.
  destruct m as [|m|m]; [done| |]; cbn [binary_normalize]; unfold binary_round;
    destruct (shl_align m e _) as [mz ez];
    match goal with
    | |- binary_round_aux _ _ ?s _ _ _ ≠ _ =>
        pose proof (binary_round_aux_sign prec emax s (Zpos mz) ez loc_Exact
                      ltac:(lia)) as Hs;
        by destruct (binary_round_aux prec emax s (Zpos mz) ez loc_Exact)
    end.
Qed.

(** When [a < b] holds, [b - a] is a number, valid representation or not. *)
Lemma sub_not_nan a b : ltb a b = true → sub b a ≠ S754_nan.
Proof.
  unfold ltb, SFltb.
  destruct (SFcompare a b) as [[]|] eqn:Hcmp; try discriminate. intros _.
  destruct a as [sa|sa| |sa ma ea], b as [sb|sb| |sb mb eb];
    cbn in Hcmp; try discriminate;
    try (by repeat match goal with s : bool |- _ => destruct s end).
  unfold sub. cbn [SFsub]. apply binary_normalize_not_nan.
Qed.

Lemma ltb_not_nan a b : ltb a b = true → a ≠ S754_nan ∧ b ≠ S754_nan.
Proof. by destruct a as [[]|[]| |[] ? ?], b as [[]|[]| |[] ? ?]. Qed.

(** X1: a run adds at most one event per adjacent pair: with [n] turns
    there are at most [n - 1] interruptions, so none for zero or one turn;
    the same holds in [voice_ai_agent.py]. *)
Theorem interruptions_at_most_one_per_pair (segments : list track) :
  (length (snd (App.analyze segments)) ≤ length segments - 1)%nat
  ∧ (length (snd (VoiceAgent.analyze segments)) ≤ length segments - 1)%nat.
Proof.
  rewrite (proj2 (voice_agent_analyze_eq segments)), app_analyze_detector.
  cbn [snd]. unfold Spec.detector.
  pose proof (length_omap_le
    (fun i => previous ← segments !! (i - 1)%nat; current ← segments !! i;
              Spec.pair_event previous current)
    (seq 1 (length segments - 1))) as H.
  rewrite length_seq in H. done.
Qed.

(** X2: the speakers of the report are exactly the labels met in the
    segments: [total_speakers] is the number of distinct labels, at most the
    number of segments. *)
Theorem speakers_are_the_segment_labels (segments : list track) :
  ∃ r c, App.run segments = Completed (r, c)
    ∧ dom (speaking_times r) = list_to_set (label <$> segments)
    ∧ total_speakers r = length (remove_dups (label <$> segments))
    ∧ (total_speakers r ≤ length segments)%nat.
Proof.
  eexists _, _. rewrite app_run_spec. split; [reflexivity|]. cbn.
  assert (Hsize : size (accumulate segments) = length (remove_dups (label <$> segments))).
  { rewrite <- size_dom, accumulate_dom.
    rewrite <- (size_list_to_set (C := gset string) (remove_dups (label <$> segments)))
      by apply NoDup_remove_dups.
    f_equal. apply set_eq. intros x.
    by rewrite !elem_of_list_to_set, elem_of_remove_dups. }
  split_and!.
  - by rewrite dom_fmap_L, accumulate_dom.
  - done.
  - rewrite Hsize. etrans; [apply length_remove_dups_le|]. by rewrite length_fmap.
Qed.

(** X3: both speakers of every reported interruption have an entry in the
    speaking-time mapping of the same run. *)
Theorem interruption_speakers_have_totals
    (segments : list track) (e : interruption) :
  e ∈ snd (App.analyze segments) →
  is_Some (fst (App.analyze segments) !! interrupter e)
  ∧ is_Some (fst (App.analyze segments) !! interrupted e).
Proof.
  rewrite app_analyze_detector. cbn [fst snd].
  intros (i & prev_turn & ptr & prev_speaker & turn & tr & speaker
          & Hp & Hc & _ & _ & ->)%detector_event_origin.
  cbn [interrupter interrupted]. rewrite !accumulate_is_Some. split.
  - exists (turn, tr, speaker). split; [|done]. by eapply list_elem_of_lookup_2.
  - exists (prev_turn, ptr, prev_speaker). split; [|done]. by eapply list_elem_of_lookup_2.
Qed.

Lemma interruption_speakers_have_totals_witness :
  is_Some (fst (App.analyze [turn_of 0 5 "X"; turn_of 3 8 "Y"; turn_of 10 12 "X"])
           !! "Y"%string)
  ∧ is_Some (fst (App.analyze [turn_of 0 5 "X"; turn_of 3 8 "Y"; turn_of 10 12 "X"])
             !! "X"%string).
Proof.
  apply (interruption_speakers_have_totals
           [turn_of 0 5 "X"; turn_of 3 8 "Y"; turn_of 10 12 "X"]
           {| time := of_Z 3; interrupter := "Y"; interrupted := "X";
              overlap_duration := of_Z 2 |}).
  rewrite sample_run_adjacent. left.
Defined.

(** X4: the analysis works turn by turn.  The result for a sequence
    extended by one turn is the result for the sequence, with the duration
    of the new turn added and, when it interrupts the last turn, one event
    appended; so the events of a sequence are a prefix of the events of any
    extension of it. *)
Theorem analysis_extends_turn_by_turn (segments more : list track) (t : track) :
  App.analyze (segments ++ [t])
  = (add_time (label t) (duration t) (fst (App.analyze segments)),
     snd (App.analyze segments) ++ next_events segments t)
  ∧ snd (App.analyze segments) `prefix_of` snd (App.analyze (segments ++ more)).
Proof.
  rewrite !app_analyze_spec. cbn [fst snd]. split.
  - rewrite accumulate_snoc, events_prefix. do 2 f_equal.
    cbn. by rewrite app_nil_r, events_at_end.
  - rewrite events_prefix. by apply prefix_app_r.
Qed.


(** X6: no event holds NaN.  An event is added only when the comparison
    [turn.start < prev_turn.end] is true, which it never is on NaN, so
    [time] and [overlap_duration] are numbers on every input, NaN
    timestamps included. *)
Theorem events_hold_no_nan (segments : list track) (e : interruption) :
  e ∈ snd (App.analyze segments) →
  time e ≠ S754_nan ∧ overlap_duration e ≠ S754_nan.
Proof.
  rewrite app_analyze_detector. cbn [snd].
  intros (i & prev_turn & ptr & prev_speaker & turn & tr & speaker
          & _ & _ & Hlt & _ & ->)%detector_event_origin.
  cbn [time overlap_duration]. split.
  - apply round2_not_nan. by destruct (ltb_not_nan _ _ Hlt).
  - by apply round2_not_nan, sub_not_nan.
Qed.

Lemma events_hold_no_nan_witness :
  round2 (dec 1 1) ≠ S754_nan ∧ dec 1 1 ≠ S754_nan.
Proof.
  apply (events_hold_no_nan
           [mk_turn (dec 0 1) (dec 1004 1000) "X"; mk_turn S754_nan (dec 2 1) "X";
            mk_turn (dec 1 1) S754_nan "Y"; mk_turn (dec 1 1) (dec 2 1) "X";
            mk_turn (dec 1 1) (dec 2 1) "Y"]
           {| time := round2 (dec 1 1); interrupter := "Y"; interrupted := "X";
              overlap_duration := dec 1 1 |}).
  vm_compute. left.
Defined.

Lemma events_at_retrack (f : string → string) (segments : list track) i :
  events_at ((fun t : track => (t.1.1, f t.1.2, t.2)) <$> segments) i
  = events_at segments i.
Proof.
  unfold events_at. rewrite !list_lookup_fmap.
  destruct (segments !! i) as [[[turn tr] speaker]|];
    destruct (0 <? i)%nat; cbn; try done.
  - by destruct (segments !! (i - 1)%nat) as [[[prev_turn ptr] prev_speaker]|].
  - by destruct (segments !! (i - 1)%nat) as [[[prev_turn ptr] prev_speaker]|].
Qed.

(** X7: the track name of a segment is never read: renaming the tracks
    changes neither the speaking times nor the interruptions. *)
Theorem track_names_are_ignored (f : string → string) (segments : list track) :
  App.analyze ((fun t : track => (t.1.1, f t.1.2, t.2)) <$> segments)
  = App.analyze segments.
Proof.
  rewrite !app_analyze_spec, length_fmap. f_equal.
  - unfold accumulate. by rewrite foldl_fmap.
  - f_equal. apply list_fmap_ext. intros j i _. apply events_at_retrack.
Qed.

(** ** Totals of well-formed turns *)

Lemma leb_zero_cases x :
  leb zero x = true ↔
  match x with
  | S754_zero _ => True
  | S754_infinity s | S754_finite s _ _ => s = false
  | S754_nan => False
  end.
Proof.
  unfold leb, SFleb.
  destruct x as [[]|[]| |[] m e]; cbn; split; (done || discriminate).
Qed.

Lemma sub_of_leb_nonneg a b :
  valid a = true → valid b = true →
  is_finite a = true → is_finite b = true →
  leb a b = true → leb zero (sub b a) = true.
Proof.
  intros Ha Hb Hfa Hfb Hle.
  destruct (ltb a b) eqn:Hlt.
  { by apply is_nonneg_leb, is_pos_nonneg, sub_pos. }
  unfold leb, SFleb in Hle. unfold ltb, SFltb in Hlt.
  destruct (SFcompare a b) as [[]|] eqn:Hcmp; try discriminate. clear Hle Hlt.
  destruct a as [sa|sa| |sa ma ea], b as [sb|sb| |sb mb eb];
    cbn in Hcmp, Hfa, Hfb; try discriminate.
  - by destruct sa, sb.
  - by destruct sb.
  - by destruct sa.
  - assert (ea = eb ∧ ma = mb) as [-> ->].
    { destruct sa, sb; try discriminate;
        destruct (Z.compare_spec ea eb); try discriminate;
        rewrite Pos.compare_cont_spec in Hcmp; cbn in Hcmp;
        destruct (Pos.compare_spec ma mb); by try discriminate. }
    assert (sa = sb) as -> by (by destruct sa, sb).
    unfold sub. cbn [SFsub]. by rewrite Z.sub_diag.
Qed.

Lemma add_nonneg a b :
  leb zero a = true → leb zero b = true → leb zero (add a b) = true.
Proof.
  rewrite !leb_zero_cases.
  destruct a as [sa|sa| |sa ma ea], b as [sb|sb| |sb mb eb]; try done;
    intros Ha Hb; subst; try done.
  - by destruct sa, sb.
  - unfold add. cbn [SFadd cond_Zopp].
    set (m := Zpos _ + Zpos _). assert (Hm : 0 < m) by (subst m; lia).
    destruct m as [|m|m]; [lia| |lia]. cbn [binary_normalize]. unfold binary_round.
    destruct (shl_align m _ _) as [mz ez].
    pose proof (binary_round_aux_sign prec emax false (Zpos mz) ez loc_Exact
                  ltac:(lia)) as Hs.
    by destruct (binary_round_aux prec emax false (Zpos mz) ez loc_Exact).
Qed.

Lemma round2_of_nonneg x : leb zero x = true → leb zero (round2 x) = true.
Proof.
  intros H%leb_zero_cases.
  destruct x as [[]|[]| |[] m e]; try done.
  by apply is_nonneg_leb, round2_nonneg.
Qed.

Lemma accumulate_nonneg segments :
  Forall well_formed segments →
  map_Forall (fun _ total => leb zero total = true) (accumulate segments).
Proof.
  induction segments as [|t segments IH] using rev_ind; intros Hwf.
  - apply map_Forall_empty.
  - apply Forall_app in Hwf as [Hwf Ht]. apply Forall_cons in Ht as [Ht _].
    unfold well_formed, valid_track in Ht.
    destruct Ht as ((Hvs & Hve) & Hfs & Hfe & Hle).
    rewrite accumulate_snoc. unfold add_time. apply map_Forall_insert_2; [|by apply IH].
    apply add_nonneg.
    + destruct (accumulate segments !! label t) as [total|] eqn:Ht; [|done].
      by apply (IH Hwf _ _ Ht).
    + by apply sub_of_leb_nonneg.
Qed.

(** X8: when every turn has finite times with [start <= end], every
    speaking time is [>= 0.0], before and after the rounding of the
    report. *)
Theorem totals_not_negative
    (segments : list track) (speaker : string) (total : float) :
  Forall well_formed segments →
  fst (App.analyze segments) !! speaker = Some total →
  leb zero total = true ∧ leb zero (round2 total) = true.
Proof.
  intros Hwf. rewrite app_analyze_detector. cbn [fst]. intros Htotal.
  pose proof (accumulate_nonneg segments Hwf _ _ Htotal) as Hnn. cbn in Hnn.
  split; [done | by apply round2_of_nonneg].
Qed.

Lemma totals_not_negative_witness :
  leb zero (of_Z 7) = true ∧ leb zero (round2 (of_Z 7)) = true.
Proof.
  apply (totals_not_negative
           [turn_of 0 5 "X"; turn_of 3 8 "Y"; turn_of 10 12 "X"] "X").
  - repeat constructor; vm_compute; reflexivity.
  - vm_compute. reflexivity.
Defined.

(** ** voice_ai_agent_custom.py against app.py *)

Lemma custom_loop_body_as_app (segments : list Custom.seg) i current st :
  segments !! i = Some current →
  (∀ previous, segments !! (i - 1)%nat = Some previous → (1 ≤ i)%nat →
               Custom.seg_speaker current ≠ Custom.seg_speaker previous) →
  Custom.loop_body segments st (i, current)
  = App.loop_body (seg_track <$> segments) i st.
Proof.
  intros Hi Hne. destruct st as [times ints].
  unfold Custom.loop_body, App.loop_body.
  rewrite !list_lookup_fmap, Hi. cbn [fmap option_fmap option_map seg_track].
  destruct (Nat.ltb_spec 0 i) as [Hpos|_]; [|done].
  destruct (segments !! (i - 1)%nat) as [previous|] eqn:Hp;
    cbn [fmap option_fmap option_map seg_track start end_]; [|done].
  rewrite bool_decide_eq_true_2 by (apply (Hne previous); [done | lia]).
  by rewrite andb_true_r.
Qed.

Lemma custom_fold_as_app (segments : list Custom.seg) st k :
  (∀ i previous current,
     segments !! i = Some previous → segments !! S i = Some current →
     Custom.seg_speaker current ≠ Custom.seg_speaker previous) →
  (k ≤ length segments)%nat →
  foldl (Custom.loop_body segments) st (zip (seq 0 k) (take k segments))
  = foldl (fun st i => App.loop_body (seg_track <$> segments) i st) st (seq 0 k).
Proof.
  intros Hadj. induction k as [|k IH]; intros Hk; [done|].
  destruct (lookup_lt_is_Some_2 segments k) as [current Hc]; [lia|].
  rewrite seq_S, (take_S_r _ _ _ Hc). cbn [Nat.add].
  rewrite zip_with_app by (rewrite length_seq, length_take_le; lia).
  rewrite !foldl_app, IH by lia. cbn [zip_with foldl].
  apply custom_loop_body_as_app; [done|].
  intros previous Hp Hpos. apply (Hadj (k - 1)%nat); [done|].
  by replace (S (k - 1)) with k by lia.
Qed.

Lemma custom_adjacent_labels_differ segmentation i previous current :
  Custom.convert segmentation !! i = Some previous →
  Custom.convert segmentation !! S i = Some current →
  Custom.seg_speaker current ≠ Custom.seg_speaker previous.
Proof.
  rewrite custom_convert_spec, !list_lookup_imap.
  destruct (omap Custom.accepted segmentation !! i); [|done].
  destruct (omap Custom.accepted segmentation !! S i); [|done].
  cbn. intros [= <-] [= <-]. cbn. intros Heq%speaker_label_inj. lia.
Qed.

Lemma seg_track_convert segmentation :
  seg_track <$> Custom.convert segmentation
  = imap (fun i s => (s, ""%string, Custom.speaker_label i))
         (omap Custom.accepted segmentation).
Proof.
  rewrite custom_convert_spec, fmap_imap. apply imap_ext.
  intros i [s e] _. done.
Qed.

Lemma interruptions_bound (segments : list track) :
  (length (snd (App.analyze segments)) ≤ length segments - 1)%nat.
Proof.
  rewrite app_analyze_detector. cbn [snd]. unfold Spec.detector.
  etrans; [apply length_omap_le|]. by rewrite length_seq.
Qed.

Lemma custom_is_app_on_relabelled_eq segmentation :
  ∃ tracks,
    tracks = imap (fun i s => (s, ""%string, Custom.speaker_label i))
                  (omap Custom.accepted segmentation)
    ∧ Custom.analyze_speakers_and_interruptions segmentation = App.analyze tracks.
Proof.
  eexists. split; [reflexivity|].
  unfold Custom.analyze_speakers_and_interruptions, Custom.analyze_segments, App.analyze.
  rewrite <- seg_track_convert, length_fmap.
  rewrite <- (custom_fold_as_app _ _ _ (custom_adjacent_labels_differ segmentation))
    by done.
  by rewrite firstn_all.
Qed.

(** X9: [analyze_speakers_and_interruptions] gives what the loop of
    [app.py] gives on the accepted segments labelled SPEAKER_00,
    SPEAKER_01, ... by position: as adjacent labels always differ, leaving
    the speaker test out changes nothing.  So it too reports at most one
    interruption per adjacent pair of accepted segments. *)
Theorem custom_is_app_on_relabelled (segmentation : list Custom.item) :
  let tracks := imap (fun i s => (s, ""%string, Custom.speaker_label i))
                     (omap Custom.accepted segmentation) in
  Custom.analyze_speakers_and_interruptions segmentation = App.analyze tracks
  ∧ (length (snd (Custom.analyze_speakers_and_interruptions segmentation))
     ≤ length (omap Custom.accepted segmentation) - 1)%nat.
Proof.
  cbv zeta.
  destruct (custom_is_app_on_relabelled_eq segmentation) as [tracks [-> Heq]].
  split; [done|]. rewrite Heq.
  etrans; [apply interruptions_bound|]. by rewrite length_imap.
Qed.

Lemma durations_of_unique (l : list track) i x :
  NoDup (label <$> l) → l !! i = Some x → durations_of (label x) l = [duration x].
Proof.
  revert i. induction l as [|y l IH]; intros i Hnd Hi; [done|].
  rewrite fmap_cons in Hnd. apply NoDup_cons in Hnd as [Hy Hnd].
  destruct i as [|i]; cbn in Hi.
  - injection Hi as ->. rewrite durations_of_cons_eq. f_equal.
    apply durations_of_nil_iff. intros t Ht Heq. apply Hy.
    rewrite <- Heq. apply list_elem_of_fmap. by exists t.
  - rewrite durations_of_cons_ne; [by eapply IH|].
    intros Heq. apply Hy. rewrite Heq. apply list_elem_of_fmap. exists x.
    split; [done|]. by eapply list_elem_of_lookup_2.
Qed.

(** X10: in [voice_ai_agent_custom.py] every accepted segment is its own
    speaker, so the speaking time of SPEAKER_i is the duration of the
    accepted segment number [i] alone, added once to 0.0. *)
Theorem custom_speaking_time_is_own_duration
    (segmentation : list Custom.item) (i : nat) (s : Segment) :
  omap Custom.accepted segmentation !! i = Some s →
  fst (Custom.analyze_speakers_and_interruptions segmentation)
  !! Custom.speaker_label i
  = Some (add zero (sub (end_ s) (start s))).
Proof.
  intros Hi.
  destruct (custom_is_app_on_relabelled_eq segmentation) as [tracks [Htr ->]].
  rewrite app_analyze_detector. cbn [fst].
  assert (Hx : tracks !! i = Some (s, ""%string, Custom.speaker_label i))
    by (by rewrite Htr, list_lookup_imap, Hi).
  assert (Hnd : NoDup (label <$> tracks)).
  { assert (label <$> tracks
            = Custom.speaker_label <$> seq 0 (length (omap Custom.accepted segmentation)))
      as -> by (rewrite Htr, fmap_imap, <- imap_seq_0; by apply imap_ext).
    apply NoDup_fmap_2; [|apply NoDup_seq].
    intros n m. apply speaker_label_inj. }
  pose proof (durations_of_unique tracks i _ Hnd Hx) as Hd.
  cbn [label duration fst snd] in Hd.
  by rewrite accumulate_lookup, Hd.
Qed.

Lemma custom_speaking_time_is_own_duration_witness :
  fst (Custom.analyze_speakers_and_interruptions
         [ Custom.ItemTuple [Custom.ObjSegment {| start := of_Z 0; end_ := of_Z 5 |}];
           Custom.ItemOther Custom.ObjArray;
           Custom.ItemTuple [Custom.ObjSegment {| start := of_Z 3; end_ := of_Z 8 |};
                             Custom.ObjLabel "X"] ])
  !! Custom.speaker_label 1
  = Some (add zero (sub (of_Z 8) (of_Z 3))).
Proof.
  exact (custom_speaking_time_is_own_duration
           [ Custom.ItemTuple [Custom.ObjSegment {| start := of_Z 0; end_ := of_Z 5 |}];
             Custom.ItemOther Custom.ObjArray;
             Custom.ItemTuple [Custom.ObjSegment {| start := of_Z 3; end_ := of_Z 8 |};
                               Custom.ObjLabel "X"] ]
           1 {| start := of_Z 3; end_ := of_Z 8 |} eq_refl).
Defined.

(** ** The scripts around the loops *)

Import Script.

Ltac script_unfold :=
  unfold voice_agent_main, custom_main, setup_pyannote_token, get_pyannote_token,
    report_and_export, load_audio_file, detect_speech_segments,
    login, pipeline_from_pretrained, model_from_pretrained, os_path_exists,
    run_pipeline, sf_read, run_inference, write_file, input,
    Script.try, Script.bind, Script.ret, Script.raise, Script.record in *;
  cbn [stdin log fst snd] in *.



Lemma voice_agent_analyze_spec segments :
  VoiceAgent.analyze segments = (accumulate segments, Spec.detector segments).
Proof.
  rewrite <- app_analyze_detector.
  destruct (voice_agent_analyze_eq segments) as [H1 H2].
  destruct (VoiceAgent.analyze segments), (App.analyze segments). cbn in *. congruence.
Qed.

Ltac in_calls H :=
  repeat (apply elem_of_cons in H as [H|H]; [try discriminate H|]);
  try (by apply not_elem_of_nil in H).

Ltac called := repeat first [apply list_elem_of_here | apply list_elem_of_further].

Ltac decided :=
  repeat match goal with
  | H : bool_decide _ = true |- _ => apply bool_decide_eq_true in H
  | H : bool_decide _ = false |- _ => apply bool_decide_eq_false in H
  end.

(** X13: the calls of [main] of [voice_ai_agent.py].  The pipeline is run
    only on the audio file, only when the file exists, after a login that
    did not fail with a non-empty token, and with a pipeline whose loading
    did not fail; it is loaded with the token only after the loading without
    token failed.  A file is written only after the pipeline gave segments,
    and holds what [app.py] computes on them: the report in
    [meeting_report.json], then the table in [interruptions.csv]. *)
Theorem voice_agent_main_calls (w : world) (st : state) :
  ∃ new, log (voice_agent_main w st).2 = log st ++ new
    ∧ (∀ p path, CallPipeline p path ∈ new →
         path = AUDIO_FILE ∧ path_exists w AUDIO_FILE = true
         ∧ pipeline_from_pretrained_raises w p = false
         ∧ ∃ token, CallLogin token ∈ new ∧ login_raises w token = false
             ∧ token ≠ ""%string
             ∧ (p = None
                ∨ p = Some token ∧ pipeline_from_pretrained_raises w None = true))
    ∧ (∀ path content, CallWrite path content ∈ new →
         ∃ p segments r c,
           CallPipeline p AUDIO_FILE ∈ new
           ∧ pipeline w p AUDIO_FILE = Some segments
           ∧ App.run segments = Completed (r, c)
           ∧ (path = "meeting_report.json"%string ∧ content = FileJson r
              ∨ path = "interruptions.csv"%string ∧ content = FileCsv c
                ∧ write_raises w "meeting_report.json" = false)).
Proof.
  destruct st as [lines calls]. script_unfold.
  repeat (case_match; simplify_eq/=);
    rewrite <- ?app_assoc; cbn [app];
    (eexists; split; [first [reflexivity | symmetry; apply app_nil_r]|]).
  all: split; [intros p path Hin | intros path content Hin]; in_calls Hin.
  all: simplify_eq; decided.
  all: try (split_and!; [done..|]; eexists; split_and!; [called|done|done|auto]).
  all: match goal with
       | H : VoiceAgent.analyze ?a = _ |- _ =>
           rewrite voice_agent_analyze_spec in H; simplify_eq;
           eexists _, a, _, _;
           split_and!; [called | done | apply app_run_spec |];
           first [left; by split_and! | right; by split_and!]
       end.
Qed.


Lemma custom_analyze_as_app segmentation :
  ∃ tracks r c,
    tracks = imap (fun i s => (s, ""%string, Custom.speaker_label i))
                  (omap Custom.accepted segmentation)
    ∧ App.run tracks = Completed (r, c)
    ∧ r = build_report (Custom.analyze_speakers_and_interruptions segmentation).1
                       (Custom.analyze_speakers_and_interruptions segmentation).2
    ∧ c = export_csv (Custom.analyze_speakers_and_interruptions segmentation).2.
Proof.
  destruct (custom_is_app_on_relabelled_eq segmentation) as [tracks [Htr Heq]].
  eexists tracks, _, _. split; [done|]. rewrite Heq, app_run_spec.
  rewrite app_analyze_detector. done.
Qed.

(** X15: the calls of [main] of [voice_ai_agent_custom.py].  The
    segmentation model is applied only to the audio file, only when the file
    exists and could be read, after a login that did not fail and a model
    loading that did not fail.  A file is written only after the model gave
    a segmentation, and holds what [app.py] computes on its accepted
    segments labelled by position. *)
Theorem custom_main_calls (w : world) (st : state) :
  ∃ new, log (custom_main w st).2 = log st ++ new
    ∧ (∀ path, CallInference path ∈ new →
         path = AUDIO_FILE ∧ path_exists w AUDIO_FILE = true
         ∧ sf_read_raises w AUDIO_FILE = false
         ∧ model_from_pretrained_raises w = false
         ∧ ∃ token, CallLogin token ∈ new ∧ login_raises w token = false
             ∧ token ≠ ""%string)
    ∧ (∀ path content, CallWrite path content ∈ new →
         ∃ segmentation r c,
           CallInference AUDIO_FILE ∈ new
           ∧ inference w AUDIO_FILE = Some segmentation
           ∧ App.run (imap (fun i s => (s, ""%string, Custom.speaker_label i))
                           (omap Custom.accepted segmentation))
             = Completed (r, c)
           ∧ (path = "meeting_report.json"%string ∧ content = FileJson r
              ∨ path = "interruptions.csv"%string ∧ content = FileCsv c
                ∧ write_raises w "meeting_report.json" = false)).
Proof.
  destruct st as [lines calls]. script_unfold.
  repeat (case_match; simplify_eq/=);
    rewrite <- ?app_assoc; cbn [app];
    (eexists; split; [first [reflexivity | symmetry; apply app_nil_r]|]).
  all: split; [intros path Hin | intros path content Hin]; in_calls Hin.
  all: simplify_eq; decided.
  all: try (split_and!; [done..|]; eexists; split_and!; [called|done|done]).
  all: match goal with
       | H : Custom.analyze_speakers_and_interruptions ?a = _ |- _ =>
           destruct (custom_analyze_as_app a) as (tracks & r & c & -> & Hrun & -> & ->);
           rewrite H in *; cbn [fst snd] in *;
           eexists a, _, _;
           split_and!; [called | done | exact Hrun |];
           first [left; by split_and! | right; by split_and!]
       end.
Qed.

(** ** Edges of the comparison and of the sum *)

Lemma SFcompare_flip a b :
  SFcompare a b = Some Lt → SFcompare b a = Some Gt.
Proof.
  destruct a as [sa|sa| |sa ma ea], b as [sb|sb| |sb mb eb]; cbn;
    try discriminate;
    try (by repeat match goal with s : bool |- _ => destruct s end).
  destruct sa, sb; try done; intros H; f_equal.
  - rewrite (Z.compare_antisym ea eb). destruct (ea ?= eb); cbn in *; try congruence.
    rewrite Pos.compare_cont_spec in *. cbn in *.
    rewrite (Pos.compare_antisym ma mb). by destruct (ma ?= mb)%positive.
  - rewrite (Z.compare_antisym ea eb). destruct (ea ?= eb); cbn in *; try congruence.
    rewrite Pos.compare_cont_spec in *. cbn in *.
    rewrite (Pos.compare_antisym ma mb). by destruct (ma ?= mb)%positive.
Qed.

Lemma leb_not_ltb a b : leb b a = true → ltb a b = false.
Proof.
  unfold leb, SFleb, ltb, SFltb. intros H.
  destruct (SFcompare a b) as [[]|] eqn:Hab; try done.
  apply SFcompare_flip in Hab. by rewrite Hab in H.
Qed.

(** X16: a turn that starts when the previous one ends, or later, adds no
    event, whoever speaks: back-to-back turns are not interruptions. *)
Theorem turn_after_previous_end_adds_no_event
    (segments : list track) (i : nat) (previous current : track)
    (times : gmap string float) (ints : list interruption) :
  segments !! i = Some previous →
  segments !! S i = Some current →
  leb (end_ previous.1.1) (start current.1.1) = true →
  snd (App.loop_body segments (S i) (times, ints)) = ints.
Proof.
  intros Hp Hc Hle. rewrite (app_loop_body_spec _ _ _ _ _ Hc). cbn [snd].
  rewrite events_at_pos by lia. replace (S i - 1)%nat with i by lia.
  rewrite Hp, Hc. cbn.
  destruct previous as [[prev_turn ptr] prev_speaker], current as [[turn tr] speaker].
  cbn in *. rewrite (leb_not_ltb _ _ Hle). cbn. apply app_nil_r.
Qed.

Lemma turn_after_previous_end_adds_no_event_witness :
  snd (App.loop_body [turn_of 0 5 "X"; turn_of 5 8 "Y"] 1 (∅, [])) = [].
Proof.
  exact (turn_after_previous_end_adds_no_event
           [turn_of 0 5 "X"; turn_of 5 8 "Y"] 0
           (turn_of 0 5 "X") (turn_of 5 8 "Y") ∅ [] eq_refl eq_refl eq_refl).
Defined.

Lemma add_nan_l x : add S754_nan x = S754_nan.
Proof. done. Qed.

Lemma add_nan_r x : add x S754_nan = S754_nan.
Proof. by destruct x. Qed.

Lemma accumulate_nan_sticks segments (times : gmap string float) speaker :
  times !! speaker = Some (S754_nan : float) →
  foldl (fun times t => add_time (label t) (duration t) times) times segments
  !! speaker = Some (S754_nan : float).
Proof.
  revert times. induction segments as [|t segments IH]; intros times Hnan; [done|].
  cbn [foldl]. apply IH. unfold add_time.
  destruct (decide (label t = speaker)) as [->|Hne].
  - rewrite lookup_insert_eq. by rewrite Hnan.
  - by rewrite lookup_insert_ne.
Qed.

(** X17: NaN is sticky in the totals.  When a turn has a NaN [start] or
    [end], the speaking time of its speaker is NaN whatever the other turns
    are, and the report carries NaN for that speaker. *)
Theorem nan_turn_makes_total_nan (segments : list track) (t : track) :
  t ∈ segments →
  start t.1.1 = S754_nan ∨ end_ t.1.1 = S754_nan →
  fst (App.analyze segments) !! label t = Some S754_nan
  ∧ ∃ r c, App.run segments = Completed (r, c)
           ∧ speaking_times r !! label t = Some S754_nan.
Proof.
  intros Hin Hnan.
  assert (Hd : duration t = S754_nan).
  { unfold duration, sub. destruct Hnan as [-> | ->]; [|done].
    by destruct (end_ t.1.1). }
  assert (Hacc : accumulate segments !! label t = Some (S754_nan : float)).
  { apply list_elem_of_split in Hin as (l1 & l2 & ->).
    unfold accumulate. rewrite foldl_app. cbn [foldl].
    apply accumulate_nan_sticks. unfold add_time.
    by rewrite lookup_insert_eq, Hd, add_nan_r. }
  rewrite app_analyze_detector. split; [done|].
  eexists _, _. rewrite app_run_spec. split; [reflexivity|].
  cbn [speaking_times build_report]. by rewrite lookup_fmap, Hacc.
Qed.

Lemma nan_turn_makes_total_nan_witness :
  fst (App.analyze [turn_of 0 5 "X"; mk_turn (of_Z 6) S754_nan "X"; turn_of 10 12 "X"])
  !! "X"%string = Some S754_nan
  ∧ ∃ r c, App.run [turn_of 0 5 "X"; mk_turn (of_Z 6) S754_nan "X"; turn_of 10 12 "X"]
           = Completed (r, c)
           ∧ speaking_times r !! "X"%string = Some S754_nan.
Proof.
  apply (nan_turn_makes_total_nan
           [turn_of 0 5 "X"; mk_turn (of_Z 6) S754_nan "X"; turn_of 10 12 "X"]
           (mk_turn (of_Z 6) S754_nan "X")).
  - right. left.
  - by right.
Defined.

(** X18: when the token is in the environment, the login works, the
    pipeline loads (without the token, or with it after a first failure),
    the audio file exists, the diarization gives segments and both files can
    be written, [main] of [voice_ai_agent.py] returns after writing the
    report that [app.py] computes on these segments and then its table. *)
Theorem voice_agent_main_writes_both_files
    (w : world) (st : state) (token : string) (segments : list track) :
  let first_fails := pipeline_from_pretrained_raises w None in
  let p := if first_fails then Some token else None in
  getenv_token w = Some token → token ≠ ""%string →
  login_raises w token = false →
  pipeline_from_pretrained_raises w p = false →
  path_exists w AUDIO_FILE = true →
  pipeline w p AUDIO_FILE = Some segments →
  write_raises w "meeting_report.json" = false →
  write_raises w "interruptions.csv" = false →
  ∃ r c, App.run segments = Completed (r, c)
    ∧ voice_agent_main w st
      = (Completed tt,
         {| stdin := stdin st;
            log := log st
                   ++ [CallLogin token; CallPipelineFromPretrained None]
                   ++ (if first_fails
                       then [CallPipelineFromPretrained (Some token)] else [])
                   ++ [CallPathExists AUDIO_FILE; CallPipeline p AUDIO_FILE;
                       CallWrite "meeting_report.json" (FileJson r);
                       CallWrite "interruptions.csv" (FileCsv c)] |}).
Proof.
  intros first_fails p Henv Htok Hlogin Hload Hfile Hpipe Hjson Hcsv.
  eexists _, _. split; [apply app_run_spec|].
  destruct st as [lines calls]. subst p first_fails. script_unfold.
  rewrite Henv, !bool_decide_eq_true_2, bool_decide_eq_false_2 by done.
  cbn. rewrite Hlogin. cbn.
  destruct (pipeline_from_pretrained_raises w None) eqn:Hfirst; cbn.
  - rewrite Hload. cbn. rewrite Hfile. cbn. rewrite Hpipe. cbn.
    rewrite voice_agent_analyze_spec. cbn. rewrite Hjson. cbn. rewrite Hcsv. cbn.
    by rewrite <- !app_assoc.
  - rewrite Hfile. cbn. rewrite Hpipe. cbn.
    rewrite voice_agent_analyze_spec. cbn. rewrite Hjson. cbn. rewrite Hcsv. cbn.
    by rewrite <- !app_assoc.
Qed.

Lemma voice_agent_main_writes_both_files_witness :
  ∃ r c,
    App.run [turn_of 0 5 "X"; turn_of 3 8 "Y"; turn_of 10 12 "X"] = Completed (r, c)
    ∧ voice_agent_main sample_world {| stdin := []; log := [] |}
      = (Completed tt,
         {| stdin := [];
            log := [CallLogin "hf_sample"; CallPipelineFromPretrained None;
                    CallPathExists AUDIO_FILE; CallPipeline None AUDIO_FILE;
                    CallWrite "meeting_report.json" (FileJson r);
                    CallWrite "interruptions.csv" (FileCsv c)] |}).
Proof.
  exact (voice_agent_main_writes_both_files sample_world {| stdin := []; log := [] |}
           "hf_sample" [turn_of 0 5 "X"; turn_of 3 8 "Y"; turn_of 10 12 "X"]
           eq_refl ltac:(discriminate) eq_refl eq_refl eq_refl eq_refl eq_refl eq_refl).
Defined.
